(** * MockApi: a shallow embedding of [frontend/mock.api.js/index.js]

    The development follows the source file top-down:
    - host-language primitives the code relies on (string operations,
      [decodeURIComponent], loose equality, the relational operator,
      [typeof], [Array.prototype.slice] and [Array.prototype.sort]);
    - [DbWrapper.find], as a function of the records the cursor yields;
    - [ResponseHelper];
    - [validateSchema];
    - [MockApi._register], [MockApi._findRoute] and [MockApi.fetch].

    Representation choices.
    - A JavaScript string is represented by its UTF-8 encoding, one [ascii]
      per byte.  Splitting on ["/"], the test [startsWith(':')],
      [substring(1)] after that test and string equality act on this encoding
      exactly as they act on the string.  The order [<] of two strings is
      computed on the UTF-16 code units the encodings stand for.
      [toUpperCase] is modelled on ASCII letters.
    - IEEE-754 numbers are not modelled: the development is parametric in a
      type of numbers with the comparisons the code uses ([JSNumber]).
      Page numbers, page sizes and string lengths are integers ([Z]).
    - An object is the list of its own enumerable properties in enumeration
      order; properties inherited from [Object.prototype] are not modelled.
    - Exceptions are values: a computation that can throw returns a
      [completion]. *)

From Stdlib Require Import ZArith List String Ascii Bool Lia Permutation Sorted.
From Stdlib Require DecimalString.
Import ListNotations.
Local Open Scope string_scope.
Local Open Scope list_scope.

Set Implicit Arguments.
Set Warnings "-register-all".

(* ------------------------------------------------------------------------- *)
(** * 0. Host primitives                                                       *)
(* ------------------------------------------------------------------------- *)

(** ** Completions: a value or a thrown exception *)

Inductive exn : Type :=
| URIError (msg : string)
| TypeError (msg : string)
| RangeError (msg : string)
| Error (msg : string).

Inductive completion (A : Type) : Type :=
| Normal (a : A)
| Throw (e : exn).

Arguments Normal {A} a.
Arguments Throw {A} e.

Definition bind {A B : Type} (c : completion A) (k : A -> completion B)
  : completion B :=
  match c with
  | Normal a => k a
  | Throw e => Throw e
  end.

Notation "x <- c ;; k" := (bind c (fun x => k))
  (at level 61, c at next level, right associativity).

(** ** Strings *)

(** [s.split(sep)] for a one-character separator. *)
Fixpoint split (sep : ascii) (s : string) : list string :=
  match s with
  | EmptyString => [EmptyString]
  | String c rest =>
      if Ascii.eqb c sep then EmptyString :: split sep rest
      else match split sep rest with
           | [] => [String c EmptyString]
           | seg :: segs => String c seg :: segs
           end
  end.

(** [Boolean(s)] for a string: the empty string is the only falsy one. *)
Definition Boolean_string (s : string) : bool :=
  match s with
  | EmptyString => false
  | String _ _ => true
  end.

(** [s.startsWith(':')] *)
Definition startsWith_colon (s : string) : bool :=
  match s with
  | String c _ => Ascii.eqb c ":"
  | EmptyString => false
  end.

(** [s.substring(1)] *)
Definition substring1 (s : string) : string :=
  match s with
  | String _ rest => rest
  | EmptyString => EmptyString
  end.

Definition upper_ascii (c : ascii) : ascii :=
  let n := nat_of_ascii c in
  if (97 <=? n)%nat && (n <=? 122)%nat then ascii_of_nat (n - 32) else c.

(** [s.toUpperCase()] and [s.toLowerCase()], on ASCII letters. *)
Fixpoint toUpperCase (s : string) : string :=
  match s with
  | EmptyString => EmptyString
  | String c rest => String (upper_ascii c) (toUpperCase rest)
  end.

Definition lower_ascii (c : ascii) : ascii :=
  let n := nat_of_ascii c in
  if (65 <=? n)%nat && (n <=? 90)%nat then ascii_of_nat (n + 32) else c.

Fixpoint toLowerCase (s : string) : string :=
  match s with
  | EmptyString => EmptyString
  | String c rest => String (lower_ascii c) (toLowerCase rest)
  end.

(** [l.join(sep)] on strings. *)
Fixpoint join (sep : string) (l : list string) : string :=
  match l with
  | [] => EmptyString
  | [s] => s
  | s :: rest => (s ++ sep ++ join sep rest)%string
  end.

(** Number of UTF-16 code units of the string a UTF-8 encoding stands for:
    continuation bytes add nothing, a four-byte lead adds a surrogate pair. *)
Fixpoint js_length (s : string) : Z :=
  match s with
  | EmptyString => 0
  | String c rest =>
      let n := nat_of_ascii c in
      (if (n <? 128)%nat then 1
       else if (n <? 192)%nat then 0
       else if (n <? 240)%nat then 1
       else 2) + js_length rest
  end.

(** The UTF-16 code units of a code point: one unit, or a surrogate pair
    above U+FFFF. *)
Definition utf16_of_code_point (cp : N) : list N :=
  if (cp <? 65536)%N then [cp]
  else [(55296 + (cp - 65536) / 1024)%N; (56320 + (cp - 65536) mod 1024)%N].

(** The UTF-16 code units of the string a UTF-8 encoding stands for.
    [pending] counts the continuation bytes still to come for the current
    code point and [acc] holds the bits read so far.  (A byte sequence that
    is not UTF-8 stands for no string; there a stray continuation byte and a
    truncated sequence give no unit.) *)
Fixpoint utf16_from (s : string) (pending : nat) (acc : N) : list N :=
  match s with
  | EmptyString => []
  | String c rest =>
      let b := N_of_ascii c in
      match pending with
      | O =>
          if (b <? 128)%N then b :: utf16_from rest 0 0
          else if (b <? 192)%N then utf16_from rest 0 0
          else if (b <? 224)%N then utf16_from rest 1 (b - 192)
          else if (b <? 240)%N then utf16_from rest 2 (b - 224)
          else utf16_from rest 3 (b - 240)
      | S p =>
          let acc' := (acc * 64 + b mod 64)%N in
          match p with
          | O => utf16_of_code_point acc' ++ utf16_from rest 0 0
          | S _ => utf16_from rest p acc'
          end
      end
  end.

Definition utf16_units (s : string) : list N := utf16_from s 0 0.

(** The lexicographic order on sequences of code units. *)
Fixpoint units_ltb (a b : list N) : bool :=
  match a, b with
  | [], [] => false
  | [], _ :: _ => true
  | _ :: _, [] => false
  | x :: a', y :: b' =>
      if (x <? y)%N then true
      else if (x =? y)%N then units_ltb a' b'
      else false
  end.

(** [s < t] on two strings: the comparison of their code units. *)
Definition string_lt (s t : string) : bool :=
  units_ltb (utf16_units s) (utf16_units t).

(** ** [decodeURIComponent] *)

Definition hex_digit (c : ascii) : option nat :=
  let n := nat_of_ascii c in
  if (48 <=? n)%nat && (n <=? 57)%nat then Some (n - 48)%nat
  else if (65 <=? n)%nat && (n <=? 70)%nat then Some (n - 55)%nat
  else if (97 <=? n)%nat && (n <=? 102)%nat then Some (n - 87)%nat
  else None.

(** For the first octet of a multi-octet sequence: how many continuation
    octets follow, and the range allowed for the first of them (the
    well-formed UTF-8 table: no overlong form, no surrogate, nothing above
    U+10FFFF).  [None] for an octet that cannot start a sequence. *)
Definition utf8_lead (b : nat) : option (nat * nat * nat) :=
  if (b <? 194)%nat then None
  else if (b <? 224)%nat then Some (1, 128, 191)%nat
  else if (b =? 224)%nat then Some (2, 160, 191)%nat
  else if (b =? 237)%nat then Some (2, 128, 159)%nat
  else if (b <? 240)%nat then Some (2, 128, 191)%nat
  else if (b =? 240)%nat then Some (3, 144, 191)%nat
  else if (b <? 244)%nat then Some (3, 128, 191)%nat
  else if (b =? 244)%nat then Some (3, 128, 143)%nat
  else None.

(** The Decode operation of ECMAScript with an empty reserved set.
    [pending] counts the continuation octets still owed to the current
    sequence, [lo]..[hi] is the range allowed for the next of them.
    [None] stands for the URIError the operation throws. *)
Fixpoint decode_from (s : string) (pending lo hi : nat) : option string :=
  match s with
  | EmptyString =>
      match pending with
      | O => Some EmptyString
      | S _ => None
      end
  | String c rest =>
      if Ascii.eqb c "%" then
        match rest with
        | String h1 (String h2 rest') =>
            match hex_digit h1, hex_digit h2 with
            | Some a, Some b =>
                let octet := (16 * a + b)%nat in
                match pending with
                | O =>
                    if (octet <? 128)%nat then
                      option_map (String (ascii_of_nat octet))
                                 (decode_from rest' 0 128 191)
                    else
                      match utf8_lead octet with
                      | Some (n, lo', hi') =>
                          option_map (String (ascii_of_nat octet))
                                     (decode_from rest' n lo' hi')
                      | None => None
                      end
                | S p =>
                    if (lo <=? octet)%nat && (octet <=? hi)%nat then
                      option_map (String (ascii_of_nat octet))
                                 (decode_from rest' p 128 191)
                    else None
                end
            | _, _ => None
            end
        | _ => None
        end
      else
        match pending with
        | O => option_map (String c) (decode_from rest 0 128 191)
        | S _ => None
        end
  end.

Definition decodeURIComponent (s : string) : completion string :=
  match decode_from s 0 128 191 with
  | Some d => Normal d
  | None => Throw (URIError "URI malformed")
  end.

(** ** Numbers *)

(** The operations on numbers the source uses.  [num_eqb] and [num_ltb] are
    the comparisons [==] and [<] on numbers (both false on [NaN]),
    [num_same] is SameValueZero, [StringToNumber] is the conversion applied
    to a string operand that meets a number. *)
Class JSNumber : Type := {
  number : Type;
  NaN : number;
  num_of_Z : Z -> number;
  num_eqb : number -> number -> bool;
  num_ltb : number -> number -> bool;
  num_same : number -> number -> bool;
  StringToNumber : string -> number;
  NumberToString : number -> string
}.


Section Values.

Context {Num : JSNumber}.

(** ** Values *)

(** The values that records, request bodies, filters and schemas carry.  An
    object is the list of its own enumerable properties in enumeration
    order. *)
Inductive value : Type :=
| VUndef
| VNull
| VBool (b : bool)
| VNum (n : number)
| VStr (s : string)
| VArr (items : list value)
| VObj (props : list (string * value)).

Definition obj : Type := list (string * value).

(** [o[k]] on an object: the value of the property, [undefined] when the
    object has none under that name. *)
Fixpoint obj_get (o : obj) (k : string) : value :=
  match o with
  | [] => VUndef
  | (k', v) :: o' => if String.eqb k k' then v else obj_get o' k
  end.

(** [o[k] = v]: an existing property keeps its place, a new one goes last. *)
Fixpoint obj_set (o : obj) (k : string) (v : value) : obj :=
  match o with
  | [] => [(k, v)]
  | (k', v') :: o' =>
      if String.eqb k k' then (k', v) :: o' else (k', v') :: obj_set o' k v
  end.

(** [Object.keys(o)] and the order of [for (const key in o)]. *)
Definition keys (o : obj) : list string := map fst o.

(** [typeof v] *)
Definition typeof (v : value) : string :=
  match v with
  | VUndef => "undefined"
  | VNull => "object"
  | VBool _ => "boolean"
  | VNum _ => "number"
  | VStr _ => "string"
  | VArr _ => "object"
  | VObj _ => "object"
  end.

(** [String(v)]; inside [Array.prototype.join] the elements [undefined] and
    [null] print as the empty string. *)
Fixpoint ToString (v : value) : string :=
  match v with
  | VUndef => "undefined"
  | VNull => "null"
  | VBool true => "true"
  | VBool false => "false"
  | VNum n => NumberToString n
  | VStr s => s
  | VArr items =>
      join "," (map (fun x => match x with
                              | VUndef | VNull => EmptyString
                              | _ => ToString x
                              end) items)
  | VObj _ => "[object Object]"
  end.

(** [l.join(sep)] on an array of values. *)
Definition join_values (sep : string) (l : list value) : string :=
  join sep (map (fun x => match x with
                          | VUndef | VNull => EmptyString
                          | _ => ToString x
                          end) l).

(** ToPrimitive: arrays and plain objects become strings, primitives stay. *)
Definition ToPrimitive (v : value) : value :=
  match v with
  | VArr _ | VObj _ => VStr (ToString v)
  | _ => v
  end.

(** ToNumber on a primitive. *)
Definition ToNumber (v : value) : number :=
  match v with
  | VUndef => NaN
  | VNull => num_of_Z 0
  | VBool true => num_of_Z 1
  | VBool false => num_of_Z 0
  | VNum n => n
  | VStr s => StringToNumber s
  | VArr _ | VObj _ => NaN
  end.

(** [x == y] (IsLooselyEqual).  Two objects are equal only when they are the
    same object; the values compared here (a stored record's field against a
    caller's filter value) are never the same object, so any two objects
    compare unequal. *)
Definition loose_eq (x y : value) : bool :=
  match x, y with
  | (VUndef | VNull), (VUndef | VNull) => true
  | (VUndef | VNull), _ => false
  | _, (VUndef | VNull) => false
  | (VArr _ | VObj _), (VArr _ | VObj _) => false
  | VBool a, VBool b => Bool.eqb a b
  | _, _ =>
      match ToPrimitive x, ToPrimitive y with
      | VStr s, VStr t => String.eqb s t
      | p, q => num_eqb (ToNumber p) (ToNumber q)
      end
  end.

(** [x != y] *)
Definition loose_neq (x y : value) : bool := negb (loose_eq x y).

(** [x < y] (IsLessThan): two strings compare as sequences of UTF-16 code
    units, anything else compares as numbers, and a comparison with [NaN]
    is false. *)
Definition js_lt (x y : value) : bool :=
  match ToPrimitive x, ToPrimitive y with
  | VStr s, VStr t => string_lt s t
  | p, q => num_ltb (ToNumber p) (ToNumber q)
  end.

(** [x > y] is [y < x]. *)
Definition js_gt (x y : value) : bool := js_lt y x.

(** SameValueZero, the equality of [Array.prototype.includes]; objects are
    compared by identity, as in [loose_eq]. *)
Definition SameValueZero (x y : value) : bool :=
  match x, y with
  | VUndef, VUndef => true
  | VNull, VNull => true
  | VBool a, VBool b => Bool.eqb a b
  | VNum a, VNum b => num_same a b
  | VStr a, VStr b => String.eqb a b
  | _, _ => false
  end.

(** [l.includes(v)] *)
Definition includes (l : list value) (v : value) : bool :=
  existsb (fun x => SameValueZero x v) l.

(** ** Arrays *)

(** [l.slice(start, end)] for integer arguments: a negative index counts from
    the end, both indices are clamped to the array. *)
Definition slice_index (len i : Z) : Z :=
  if (i <? 0)%Z then Z.max (len + i) 0 else Z.min i len.

Definition slice {A : Type} (l : list A) (start stop : Z) : list A :=
  let len := Z.of_nat (List.length l) in
  let k := slice_index len start in
  let final := slice_index len stop in
  firstn (Z.to_nat (Z.max (final - k) 0)) (skipn (Z.to_nat k) l).

(** [l.sort(cmp)].  The sort of ECMAScript is stable, and for a consistent
    comparator its result is the one sorted stable arrangement of the
    elements, whatever the algorithm; a stable insertion sort computes it.
    [insert_sorted x l] puts [x], which came before the elements of [l],
    in front of the first element that does not compare below it. *)
Fixpoint insert_sorted {A : Type} (cmp : A -> A -> Z) (x : A) (l : list A)
  : list A :=
  match l with
  | [] => [x]
  | y :: l' =>
      if (cmp x y <=? 0)%Z then x :: y :: l'
      else y :: insert_sorted cmp x l'
  end.

Fixpoint sort {A : Type} (cmp : A -> A -> Z) (l : list A) : list A :=
  match l with
  | [] => []
  | x :: l' => insert_sorted cmp x (sort cmp l')
  end.

(* ------------------------------------------------------------------------- *)
(** * 1. [DbWrapper.find]                                                      *)
(* ------------------------------------------------------------------------- *)

(** The [paginate] option.  [None] is an absent field. *)
Record Paginate : Type := mkPaginate {
  page : option Z;
  limit : option Z
}.

(** The query argument of [find], with its defaults [{}]. *)
Record Query : Type := mkQuery {
  filter : obj;
  sort_by : list (string * string);
  paginate : Paginate
}.

Definition no_paginate : Paginate := mkPaginate None None.
Definition default_query : Query := mkQuery [] [] no_paginate.

(** The loop [for (const key in filter)] with its [break]. *)
Fixpoint filter_matches (item : obj) (flt : obj) (ks : list string) : bool :=
  match ks with
  | [] => true
  | key :: ks' =>
      if loose_neq (obj_get item key) (obj_get flt key) then false
      else filter_matches item flt ks'
  end.

(** The cursor walk: every record of the store, in store order, kept when it
    matches. *)
Fixpoint scan (records : list obj) (flt : obj) (results : list obj)
  : list obj :=
  match records with
  | [] => results
  | item :: rest =>
      if filter_matches item flt (keys flt)
      then scan rest flt (results ++ [item])
      else scan rest flt results
  end.

(** The comparator handed to [results.sort]. *)
Definition sort_cmp (sortKey order : string) (a b : obj) : Z :=
  if js_lt (obj_get a sortKey) (obj_get b sortKey)
  then (if String.eqb order "asc" then (-1) else 1)%Z
  else if js_gt (obj_get a sortKey) (obj_get b sortKey)
  then (if String.eqb order "asc" then 1 else (-1))%Z
  else 0%Z.

(** Truthiness of a number-valued option field. *)
Definition truthy_Z (o : option Z) : bool :=
  match o with
  | Some z => negb (z =? 0)%Z
  | None => false
  end.

Definition sort_step (srt : list (string * string)) (results : list obj)
  : list obj :=
  match srt with
  | (sortKey, dir) :: _ =>
      if Boolean_string sortKey
      then sort (sort_cmp sortKey (toLowerCase dir)) results
      else results
  | [] => results
  end.

Definition paginate_step (p : Paginate) (results : list obj) : list obj :=
  match page p, limit p with
  | Some pg, Some lim =>
      if truthy_Z (Some pg) && truthy_Z (Some lim) then
        let page := Z.max 1 pg in
        let startIndex := ((page - 1) * lim)%Z in
        slice results startIndex (startIndex + lim)%Z
      else results
  | _, _ => results
  end.

(** [find(storeName, query)], as a function of the records the cursor of the
    store yields. *)
Definition find (records : list obj) (q : Query) : list obj :=
  let results := scan records (filter q) [] in
  let results := sort_step (sort_by q) results in
  paginate_step (paginate q) results.

(* ------------------------------------------------------------------------- *)
(** * 2. [ResponseHelper]                                                      *)
(* ------------------------------------------------------------------------- *)

(** The text a response carries.  [JsonText data] stands for the string
    [JSON.stringify(data)]. *)
Inductive body_text : Type :=
| JsonText (data : value)
| PlainText (s : string).

Record ResponseHelper : Type := mkResponseHelper {
  _status : Z;
  _body : option body_text;
  _content_type : string
}.

(** [new ResponseHelper()] *)
Definition new_ResponseHelper : ResponseHelper :=
  mkResponseHelper 200 None "application/json".

Definition status (code : Z) (res : ResponseHelper) : ResponseHelper :=
  mkResponseHelper code (_body res) (_content_type res).

(** [JSON.stringify(undefined)] is [undefined], which leaves the response
    without a body. *)
Definition json (data : value) (res : ResponseHelper) : ResponseHelper :=
  mkResponseHelper (_status res)
                   (match data with
                    | VUndef => None
                    | _ => Some (JsonText data)
                    end)
                   "application/json".

Definition send (data : value) (res : ResponseHelper) : ResponseHelper :=
  match data with
  | VArr _ | VObj _ => json data res
  | _ => mkResponseHelper (_status res) (Some (PlainText (ToString data)))
                          "text/plain"
  end.

(** The value [fetch] hands back: a [Response] of the Fetch API. *)
Record Response : Type := mkResponse {
  resp_status : Z;
  resp_statusText : string;
  resp_content_type : string;
  resp_body : option body_text
}.

Definition statusTextMap (code : Z) : string :=
  if (code =? 200)%Z then "OK"
  else if (code =? 201)%Z then "Created"
  else if (code =? 204)%Z then "No Content"
  else if (code =? 400)%Z then "Bad Request"
  else if (code =? 404)%Z then "Not Found"
  else if (code =? 500)%Z then "Internal Server Error"
  else "".

(** A status that forbids a body (101 and 103 are out of range anyway). *)
Definition null_body_status (code : Z) : bool :=
  (code =? 204)%Z || (code =? 205)%Z || (code =? 304)%Z.

(** The conversion of the [status] member of the [Response] init to an
    [unsigned short]: the integer modulo 2^16. *)
Definition to_unsigned_short (z : Z) : Z := (z mod 65536)%Z.

(** [build()]: the [Response] constructor converts the status to an unsigned
    short, then throws a RangeError for a status outside 200..599 and a
    TypeError for a body on a null-body status; the response carries the
    converted status, and the status text looked up with [_status] itself. *)
Definition build (res : ResponseHelper) : completion Response :=
  let st := to_unsigned_short (_status res) in
  if negb ((200 <=? st)%Z && (st <=? 599)%Z) then
    Throw (RangeError "The status provided is outside the range [200, 599].")
  else
    match _body res with
    | Some _ =>
        if null_body_status st then
          Throw (TypeError "Response with null body status cannot have body")
        else Normal (mkResponse st (statusTextMap (_status res))
                                (_content_type res) (_body res))
    | None => Normal (mkResponse st (statusTextMap (_status res))
                                 (_content_type res) None)
    end.

(* ------------------------------------------------------------------------- *)
(** * 3. [validateSchema]                                                      *)
(* ------------------------------------------------------------------------- *)

(** One rule of a schema.  [None] is an absent field; [rule_pattern] is the
    [test] method of the regular expression. *)
Record Rule : Type := mkRule {
  rule_type : option string;
  rule_required : bool;
  rule_minLength : option Z;
  rule_maxLength : option Z;
  rule_pattern : option (string -> bool);
  rule_min : option number;
  rule_max : option number;
  rule_enum : option (list value)
}.

Definition Schema : Type := list (string * Rule).

Record ValidationResult : Type := mkValidationResult {
  success : bool;
  errors : value
}.

(** Decimal text of an integer, as a template literal prints it. *)
Definition Z_to_string (z : Z) : string :=
  DecimalString.NilZero.string_of_int (Z.to_int z).

(** [a[k]] on an array: ["length"] and the index properties. *)
Fixpoint array_get_from (items : list value) (i : nat) (k : string) : value :=
  match items with
  | [] => VUndef
  | x :: rest =>
      if String.eqb k (Z_to_string (Z.of_nat i)) then x
      else array_get_from rest (S i) k
  end.

(** [data[key]] where [typeof data] is ["object"] and [data] is not null. *)
Definition get_prop (data : value) (key : string) : value :=
  match data with
  | VObj o => obj_get o key
  | VArr items =>
      if String.eqb key "length"
      then VNum (num_of_Z (Z.of_nat (List.length items)))
      else array_get_from items 0 key
  | _ => VUndef
  end.

(** [value === undefined || value === null] *)
Definition is_nullish (v : value) : bool :=
  match v with
  | VUndef | VNull => true
  | _ => false
  end.

(** Truthiness of an optional string field. *)
Definition truthy_string (o : option string) : bool :=
  match o with
  | Some s => Boolean_string s
  | None => false
  end.

(** The body of [case 'string']. *)
Definition string_checks (rule : Rule) (s : string) : list string :=
  (match rule_minLength rule with
   | Some n =>
       if truthy_Z (Some n) && (js_length s <? n)%Z
       then [("Minimum length is " ++ Z_to_string n)%string] else []
   | None => []
   end) ++
  (match rule_maxLength rule with
   | Some n =>
       if truthy_Z (Some n) && (n <? js_length s)%Z
       then [("Maximum length is " ++ Z_to_string n)%string] else []
   | None => []
   end) ++
  (match rule_pattern rule with
   | Some test => if negb (test s) then ["Does not match pattern"] else []
   | None => []
   end).

(** The body of [case 'number']. *)
Definition number_checks (rule : Rule) (n : number) : list string :=
  (match rule_min rule with
   | Some m =>
       if num_ltb n m then [("Minimum value is " ++ NumberToString m)%string] else []
   | None => []
   end) ++
  (match rule_max rule with
   | Some m =>
       if num_ltb m n then [("Maximum value is " ++ NumberToString m)%string] else []
   | None => []
   end).

(** The [switch (rule.type)], entered when the type test did not fail, so
    that under ['string'] the value is a string and under ['number'] a
    number. *)
Definition type_checks (rule : Rule) (v : value) : list string :=
  match rule_type rule with
  | Some t =>
      if String.eqb t "string" then
        match v with
        | VStr s => string_checks rule s
        | _ => []
        end
      else if String.eqb t "number" then
        match v with
        | VNum n => number_checks rule n
        | _ => []
        end
      else []
  | None => []
  end.

(** [rule.type && typeof value !== rule.type] *)
Definition type_mismatch (rule : Rule) (v : value) : bool :=
  match rule_type rule with
  | Some t => Boolean_string t && negb (String.eqb (typeof v) t)
  | None => false
  end.

Definition enum_check (rule : Rule) (v : value) : list string :=
  match rule_enum rule with
  | Some allowed =>
      if negb (includes allowed v)
      then [("Value must be one of: " ++ join_values ", " allowed)%string]
      else []
  | None => []
  end.

(** The [fieldErrors] of one iteration of the loop over the schema. *)
Definition fieldErrors (rule : Rule) (v : value) : list string :=
  if rule_required rule && is_nullish v then ["Field is required"]
  else if negb (is_nullish v) then
    (if type_mismatch rule v
     then [("Type must be '" ++ match rule_type rule with
                                | Some t => t
                                | None => EmptyString
                                end ++ "'")%string]
     else type_checks rule v)
    ++ enum_check rule v
  else [].

(** The loop [for (const key in schema)], threading [errors]. *)
Fixpoint validate_fields (data : value) (schema : Schema) (errs : obj) : obj :=
  match schema with
  | [] => errs
  | (key, rule) :: rest =>
      let fe := fieldErrors rule (get_prop data key) in
      validate_fields data rest
        (match fe with
         | [] => errs
         | _ :: _ => obj_set errs key (VArr (map VStr fe))
         end)
  end.

Definition validateSchema (data : value) (schema : Schema) : ValidationResult :=
  if negb (String.eqb (typeof data) "object") || is_nullish data then
    mkValidationResult false
      (VObj [("_global", VStr "Request body was expected to be an object.")])
  else
    let errs := validate_fields data schema [] in
    let isValid := (List.length (keys errs) =? 0)%nat in
    mkValidationResult isValid (if negb isValid then VObj errs else VNull).

End Values.

(** [JSON.parse], a host function: the parsed value, or [None] for the
    SyntaxError it throws on text that is not JSON. *)
Class JSONParser {Num : JSNumber} : Type := {
  JSON_parse : string -> option value
}.

(* ------------------------------------------------------------------------- *)
(** * 4. [MockApi]                                                             *)
(* ------------------------------------------------------------------------- *)

Section Api.

Context {Num : JSNumber} {Json : JSONParser}.

(** The object stores of the database: store name and records. *)
Definition Store : Type := list (string * list obj).

(** The [req] object a handler receives. *)
Record Request : Type := mkRequest {
  req_params : obj;
  req_query : obj;
  req_body : value
}.

(** What awaiting [route.handler(req, res, db)] leaves behind: whether the
    handler threw (or its promise rejected), the response helper and the
    store as the handler left them.  Handlers are assumed to settle. *)
Record HandlerRun : Type := mkHandlerRun {
  run_outcome : completion unit;
  run_res : ResponseHelper;
  run_store : Store
}.

Definition Handler : Type := Request -> ResponseHelper -> Store -> HandlerRun.

Record Route : Type := mkRoute {
  method : string;
  path : string;
  pathSegments : list string;
  params : list (string * nat);
  schema : option Schema;
  handler : Handler
}.

(** [db] is [None] until [init()] has run. *)
Record MockApi : Type := mkMockApi {
  db : option Store;
  routes : list Route
}.

(** [path.split('/').filter(Boolean)] *)
Definition segments (path : string) : list string :=
  List.filter Boolean_string (split "/" path).

(** The [params] of [_register]: name and index of every [:name] segment. *)
Fixpoint param_entries (segs : list string) (index : nat)
  : list (string * nat) :=
  match segs with
  | [] => []
  | segment :: rest =>
      if startsWith_colon segment
      then (substring1 segment, index) :: param_entries rest (S index)
      else param_entries rest (S index)
  end.

(** [_register(method, path, schema, handler)]; the three-argument call is
    the one with [schema = None]. *)
Definition _register (api : MockApi) (method path : string)
           (schema : option Schema) (handler : Handler) : MockApi :=
  let pathSegments := segments path in
  let params := param_entries pathSegments 0 in
  mkMockApi (db api)
            (routes api ++
             [mkRoute (toUpperCase method) path pathSegments params
                      schema handler]).

Definition get api path schema handler := _register api "GET" path schema handler.
Definition post api path schema handler := _register api "POST" path schema handler.
Definition put api path schema handler := _register api "PUT" path schema handler.
Definition delete api path schema handler := _register api "DELETE" path schema handler.
Definition patch api path schema handler := _register api "PATCH" path schema handler.

(** The inner loop of [_findRoute] over the segments of one route.
    [Normal None] is [match = false]; a parameter segment whose request
    segment does not decode throws.  (The lists have the same length when
    the loop is entered; a missing request segment would read as
    [undefined].) *)
Fixpoint match_segments (routeSegments requestSegments : list string)
         (params : obj) : completion (option obj) :=
  match routeSegments with
  | [] => Normal (Some params)
  | routeSegment :: routeRest =>
      if startsWith_colon routeSegment then
        decoded <- decodeURIComponent
                     (match requestSegments with
                      | requestSegment :: _ => requestSegment
                      | [] => "undefined"
                      end) ;;
        match_segments routeRest (tl requestSegments)
                       (obj_set params (substring1 routeSegment) (VStr decoded))
      else
        match requestSegments with
        | requestSegment :: _ =>
            if String.eqb routeSegment requestSegment
            then match_segments routeRest (tl requestSegments) params
            else Normal None
        | [] => Normal None
        end
  end.

(** The loop of [_findRoute] over the routes. *)
Fixpoint find_route_in (rs : list Route) (reqMethod : string)
         (requestSegments : list string) : completion (option (Route * obj)) :=
  match rs with
  | [] => Normal None
  | route :: rest =>
      if negb (String.eqb (method route) reqMethod)
         || negb (List.length (pathSegments route)
                  =? List.length requestSegments)%nat
      then find_route_in rest reqMethod requestSegments
      else
        m <- match_segments (pathSegments route) requestSegments [] ;;
        match m with
        | Some params => Normal (Some (route, params))
        | None => find_route_in rest reqMethod requestSegments
        end
  end.

Definition _findRoute (api : MockApi) (reqMethod urlPath : string)
  : completion (option (Route * obj)) :=
  find_route_in (routes api) reqMethod (segments urlPath).

(** [Object.fromEntries(entries)]: a later entry overwrites an earlier one
    of the same name. *)
Fixpoint fromEntries (entries : list (string * string)) (acc : obj) : obj :=
  match entries with
  | [] => acc
  | (k, v) :: rest => fromEntries rest (obj_set acc k (VStr v))
  end.

(** The [options] argument of [fetch]. *)
Record FetchOptions : Type := mkFetchOptions {
  opt_method : option string;
  opt_body : option string
}.

(** What one call of [fetch] does: the response it resolves to or the
    exception it rejects with, the store afterwards, and the handler calls
    it made. *)
Record FetchRun : Type := mkFetchRun {
  fetch_result : completion Response;
  fetch_store : option Store;
  fetch_calls : list (Route * Request)
}.

(** [body] as [fetch] computes it. *)
Definition parse_body (b : option string) : value :=
  match b with
  | Some text =>
      if Boolean_string text then
        match JSON_parse text with
        | Some v => v
        | None => VStr text
        end
      else VNull
  | None => VNull
  end.

(** [['POST', 'PUT', 'PATCH'].includes(method)] *)
Definition validated_method (method : string) : bool :=
  String.eqb method "POST" || String.eqb method "PUT"
  || String.eqb method "PATCH".

(** [(options.method || 'GET').toUpperCase()] *)
Definition request_method (options : FetchOptions) : string :=
  toUpperCase (match opt_method options with
               | Some m => if Boolean_string m then m else "GET"
               | None => "GET"
               end).

(** [new ResponseHelper().status(code).json(data).build()] *)
Definition reply (code : Z) (data : value) : completion Response :=
  build (json data (status code new_ResponseHelper)).

(** [fetch(input, options)].  [pathname] and [searchParams] are what
    [new URL(input, location.origin)] gives; the simulated delay is left
    out. *)
Definition fetch (api : MockApi) (pathname : string)
           (searchParams : list (string * string)) (options : FetchOptions)
  : FetchRun :=
  match db api with
  | None =>
      mkFetchRun
        (Throw (Error "MockApi is not initialized. Call .init() before use."))
        None []
  | Some store =>
      let method := request_method options in
      match _findRoute api method pathname with
      | Throw e => mkFetchRun (Throw e) (Some store) []
      | Normal None =>
          mkFetchRun
            (reply 404 (VObj [("message",
               VStr ("Route " ++ method ++ " " ++ pathname ++ " not found."))]))
            (Some store) []
      | Normal (Some (route, params)) =>
          let body := parse_body (opt_body options) in
          let validationResult :=
            match schema route with
            | Some sch =>
                if validated_method method
                then Some (validateSchema body sch) else None
            | None => None
            end in
          match validationResult with
          | Some (mkValidationResult false errs) =>
              mkFetchRun
                (reply 400 (VObj [("message", VStr "Validation Error");
                                  ("errors", errs)]))
                (Some store) []
          | _ =>
              let req := mkRequest params (fromEntries searchParams []) body in
              let res := new_ResponseHelper in
              let run := handler route req res store in
              mkFetchRun
                (match run_outcome run with
                 | Normal _ =>
                     match build (run_res run) with
                     | Normal r => Normal r
                     | Throw _ =>
                         reply 500 (VObj [("message",
                                           VStr "Internal Server Error")])
                     end
                 | Throw _ =>
                     reply 500 (VObj [("message",
                                       VStr "Internal Server Error")])
                 end)
                (Some (run_store run)) [(route, req)]
          end
      end
  end.

End Api.

(** ** [MockApi.exportData] *)

Section ExportData.

Context {Num : JSNumber}.

(** The records of one object store, in the order its cursor yields them;
    [None] when the database has no store of that name. *)
Fixpoint store_records (database : Store) (storeName : string)
  : option (list obj) :=
  match database with
  | [] => None
  | (name, records) :: rest =>
      if String.eqb name storeName then Some records
      else store_records rest storeName
  end.

(** [dbWrapper.find(storeName, query)] on the database: opening the
    transaction on a store the database does not have throws inside the
    promise, which rejects. *)
Definition DbWrapper_find (database : Store) (storeName : string) (q : Query)
  : completion (list obj) :=
  match store_records database storeName with
  | Some records => Normal (find records q)
  | None => Throw (Error "NotFoundError")
  end.

(** [Promise.all(this.options.stores.map(async storeName => ...))]: the
    pairs [{ storeName, records }], or the rejection of the first store that
    cannot be read. *)
Fixpoint export_results (database : Store) (stores : list string)
  : completion (list (string * list obj)) :=
  match stores with
  | [] => Normal []
  | storeName :: rest =>
      records <- DbWrapper_find database storeName default_query ;;
      others <- export_results database rest ;;
      Normal ((storeName, records) :: others)
  end.

(** The [reduce] of [exportData]: [acc[storeName] = records]. *)
Fixpoint export_reduce (results : list (string * list obj)) (acc : obj) : obj :=
  match results with
  | [] => acc
  | (storeName, records) :: rest =>
      export_reduce rest (obj_set acc storeName (VArr (map VObj records)))
  end.

(** [exportData()], for the [options.stores] of the instance. *)
Definition exportData (stores : list string) (database : Store)
  : completion obj :=
  results <- export_results database stores ;;
  Normal (export_reduce results []).

End ExportData.

(* ------------------------------------------------------------------------- *)
(** * 5. An instance of the host, to run the definitions                       *)
(* ------------------------------------------------------------------------- *)

(** Numbers are the integers and [NaN] ([None]); JSON text is read without
    string escapes, fractions or exponents.  The theorems below hold for
    every host; this one serves to evaluate the code on concrete requests. *)
Module IntHost.

Definition num : Type := option Z.

Definition eqb (a b : num) : bool :=
  match a, b with
  | Some x, Some y => (x =? y)%Z
  | _, _ => false
  end.

Definition ltb (a b : num) : bool :=
  match a, b with
  | Some x, Some y => (x <? y)%Z
  | _, _ => false
  end.

Definition same (a b : num) : bool :=
  match a, b with
  | Some x, Some y => (x =? y)%Z
  | None, None => true
  | _, _ => false
  end.

Definition of_string (s : string) : num :=
  match s with
  | EmptyString => Some 0%Z
  | _ => option_map Z.of_int (DecimalString.NilEmpty.int_of_string s)
  end.

Definition to_string (n : num) : string :=
  match n with
  | Some z => Z_to_string z
  | None => "NaN"
  end.

#[export] Instance IntNumber : JSNumber := {|
  number := num;
  NaN := None;
  num_of_Z := Some;
  num_eqb := eqb;
  num_ltb := ltb;
  num_same := same;
  StringToNumber := of_string;
  NumberToString := to_string
|}.

Definition quote : ascii := ascii_of_nat 34.

Definition is_ws (c : ascii) : bool :=
  let n := nat_of_ascii c in
  (n =? 32)%nat || (n =? 9)%nat || (n =? 10)%nat || (n =? 13)%nat.

Definition is_digit (c : ascii) : bool :=
  let n := nat_of_ascii c in (48 <=? n)%nat && (n <=? 57)%nat.

Fixpoint skip_ws (s : string) : string :=
  match s with
  | String c r => if is_ws c then skip_ws r else s
  | EmptyString => EmptyString
  end.

(** The characters of a string literal up to its closing quote. *)
Fixpoint take_string (s : string) : option (string * string) :=
  match s with
  | EmptyString => None
  | String c r =>
      if Ascii.eqb c quote then Some (EmptyString, r)
      else if Ascii.eqb c "\" || (nat_of_ascii c <? 32)%nat then None
      else match take_string r with
           | Some (lit, rest) => Some (String c lit, rest)
           | None => None
           end
  end.

Fixpoint take_digits (s : string) : string * string :=
  match s with
  | String c r =>
      if is_digit c then let '(d, rest) := take_digits r in (String c d, rest)
      else (EmptyString, s)
  | EmptyString => (EmptyString, EmptyString)
  end.

Definition strip (prefix s : string) : option string :=
  if String.prefix prefix s
  then Some (String.substring (String.length prefix)
                              (String.length s - String.length prefix) s)
  else None.

Definition parse_int (s : string) : option (value * string) :=
  let '(neg, s1) := match s with
                    | String "-" r => (true, r)
                    | _ => (false, s)
                    end in
  let '(digits, rest) := take_digits s1 in
  match digits, rest with
  | EmptyString, _ => None
  | String "0" (String _ _), _ => None
  | _, String "." _ | _, String "e" _ | _, String "E" _ => None
  | _, _ =>
      match DecimalString.NilEmpty.uint_of_string digits with
      | Some u =>
          let z := Z.of_uint u in
          Some (VNum (Some (if neg then (- z)%Z else z)), rest)
      | None => None
      end
  end.

Fixpoint parse_value (fuel : nat) (s : string) : option (value * string) :=
  match fuel with
  | O => None
  | S fuel' =>
      match skip_ws s with
      | EmptyString => None
      | String c r as t =>
          if Ascii.eqb c quote then
            match take_string r with
            | Some (lit, rest) => Some (VStr lit, rest)
            | None => None
            end
          else if Ascii.eqb c "[" then
            match skip_ws r with
            | String "]" rest => Some (VArr [], rest)
            | _ => parse_items fuel' r []
            end
          else if Ascii.eqb c "{" then
            match skip_ws r with
            | String "}" rest => Some (VObj [], rest)
            | _ => parse_members fuel' r []
            end
          else
            match strip "null" t, strip "true" t, strip "false" t with
            | Some rest, _, _ => Some (VNull, rest)
            | _, Some rest, _ => Some (VBool true, rest)
            | _, _, Some rest => Some (VBool false, rest)
            | _, _, _ => parse_int t
            end
      end
  end

with parse_items (fuel : nat) (s : string) (acc : list value)
  : option (value * string) :=
  match fuel with
  | O => None
  | S fuel' =>
      match parse_value fuel' s with
      | Some (v, rest) =>
          match skip_ws rest with
          | String "," rest' => parse_items fuel' rest' (acc ++ [v])
          | String "]" rest' => Some (VArr (acc ++ [v]), rest')
          | _ => None
          end
      | None => None
      end
  end

with parse_members (fuel : nat) (s : string) (acc : obj)
  : option (value * string) :=
  match fuel with
  | O => None
  | S fuel' =>
      match skip_ws s with
      | String c r =>
          if Ascii.eqb c quote then
            match take_string r with
            | Some (key, rest) =>
                match skip_ws rest with
                | String ":" rest' =>
                    match parse_value fuel' rest' with
                    | Some (v, rest'') =>
                        match skip_ws rest'' with
                        | String "," more =>
                            parse_members fuel' more (obj_set acc key v)
                        | String "}" more => Some (VObj (obj_set acc key v), more)
                        | _ => None
                        end
                    | None => None
                    end
                | _ => None
                end
            | None => None
            end
          else None
      | EmptyString => None
      end
  end.

Definition parse (text : string) : option value :=
  match parse_value (2 * String.length text + 2) text with
  | Some (v, rest) =>
      match skip_ws rest with
      | EmptyString => Some v
      | _ => None
      end
  | None => None
  end.

#[export] Instance IntJson : JSONParser := {| JSON_parse := parse |}.

End IntHost.

(** ** Example data: the schemas, seed data and routes of the usage example *)

Module Example.

Import IntHost.

(** A JSON string literal. *)
Definition dq (s : string) : string :=
  String quote (s ++ String quote EmptyString).

(** [const UserSchema = { name: { type: 'string', required: true } }] *)
Definition UserSchema : Schema :=
  [("name", mkRule (Some "string") true None None None None None None)].

(** [const PostSchema = { title: ..., content: ..., status: ..., userId: ... }] *)
Definition PostSchema : Schema :=
  [("title", mkRule (Some "string") true (Some 5%Z) None None None None None);
   ("content", mkRule (Some "string") true None None None None None None);
   ("status", mkRule (Some "string") true None None None None None
                     (Some [VStr "draft"; VStr "published"]));
   ("userId", mkRule (Some "string") true None None None None None None)].

(** [const seedData = { users: [...], posts: [...] }] *)
Definition seedData : Store :=
  [("users", [[("id", VStr "user-1"); ("name", VStr "Admin")]]);
   ("posts", [[("id", VStr "post-1"); ("title", VStr "Welcome Post");
               ("status", VStr "published"); ("userId", VStr "user-1")]])].

Fixpoint records_of (store : Store) (storeName : string) : list obj :=
  match store with
  | [] => []
  | (name, records) :: rest =>
      if String.eqb name storeName then records else records_of rest storeName
  end.

(** [(req, res, db) => db.find('posts').then(p => res.json(p))] *)
Definition list_posts : Handler :=
  fun req res store =>
    mkHandlerRun (Normal tt)
      (json (VArr (map VObj (find (records_of store "posts") default_query)))
            res)
      store.

(** [(req, res, db) => db.get('users', req.params.userId).then(user =>
      user ? res.json(user) : res.status(404).send('Not Found'))] *)
Definition show_user : Handler :=
  fun req res store =>
    mkHandlerRun (Normal tt)
      (match List.find (fun r => SameValueZero
                                   (obj_get r "id")
                                   (obj_get (req_params req) "userId"))
                       (records_of store "users") with
       | Some user => json (VObj user) res
       | None => send (VStr "Not Found") (status 404 res)
       end)
      store.

(** A handler that answers 201 with the body it was sent. *)
Definition created : Handler :=
  fun req res store =>
    mkHandlerRun (Normal tt) (json (req_body req) (status 201 res)) store.

(** A handler that throws. *)
Definition failing : Handler :=
  fun req res store => mkHandlerRun (Throw (Error "boom")) res store.

(** The routes of the usage example, on an initialised database. *)
Definition api : MockApi :=
  get (post (get (post (mkMockApi (Some seedData) [])
                       "/posts" (Some PostSchema) created)
                 "/posts" None list_posts)
            "/users" (Some UserSchema) created)
      "/users/:userId" None show_user.

(** The same routes before [init()]. *)
Definition api_before_init : MockApi := mkMockApi None (routes api).

(** One route with a literal segment after a parameter. *)
Definition nested_api : MockApi :=
  get (mkMockApi (Some seedData) []) "/users/:userId/posts" None list_posts.

Definition GET : FetchOptions := mkFetchOptions None None.

Definition POST (body : string) : FetchOptions :=
  mkFetchOptions (Some "POST") (Some body).

(** [{"title":"ok","status":"draft"}] *)
Definition short_title : string :=
  "{" ++ dq "title" ++ ":" ++ dq "ok" ++ "," ++ dq "status" ++ ":"
      ++ dq "draft" ++ "}".

(** Five records, and four posts of which two are drafts. *)
Definition five : list obj :=
  [[("id", VStr "r0")]; [("id", VStr "r1")]; [("id", VStr "r2")];
   [("id", VStr "r3")]; [("id", VStr "r4")]].

Definition post_of (id st : string) : obj :=
  [("id", VStr id); ("status", VStr st)].

Definition four_posts : list obj :=
  [post_of "p1" "published"; post_of "p2" "draft";
   post_of "p3" "published"; post_of "p4" "draft"].

(** The last route of [api], as [_register] stores it. *)
Definition show_user_route : Route :=
  mkRoute "GET" "/users/:userId" ["users"; ":userId"] [("userId", 1%nat)]
          None show_user.

(** A string of at most zero characters, and of at most one. *)
Definition empty_code : Schema :=
  [("code", mkRule (Some "string") false None (Some 0%Z) None None None None)].

Definition short_code : Schema :=
  [("code", mkRule (Some "string") false None (Some 1%Z) None None None None)].

(** An optional field with a type, a length and an enum constraint. *)
Definition nickname_rule : Rule :=
  mkRule (Some "string") false (Some 3%Z) (Some 8%Z) None None None
         (Some [VStr "ann"; VStr "bob"]).

End Example.

(** ** More sample data: routes, handlers and records for edge cases *)

Module Sample.

Import IntHost.
Import Example.

(** A handler that answers 204 and still sets a JSON body. *)
Definition no_content_with_body : Handler :=
  fun req res store =>
    mkHandlerRun (Normal tt) (json (VObj []) (status 204 res)) store.

(** A handler that returns without touching the response. *)
Definition silent : Handler :=
  fun req res store => mkHandlerRun (Normal tt) res store.

(** Routes for the edge cases: a GET route that carries a schema, a handler
    that throws, one whose response cannot be built, one that stays silent. *)
Definition edge_api : MockApi :=
  get (get (get (get (mkMockApi (Some seedData) [])
                     "/search" (Some PostSchema) list_posts)
                "/boom" None failing)
           "/empty" None no_content_with_body)
      "/quiet" None silent.

Definition search_route : Route :=
  mkRoute "GET" "/search" ["search"] [] (Some PostSchema) list_posts.

Definition boom_route : Route :=
  mkRoute "GET" "/boom" ["boom"] [] None failing.

Definition empty_route : Route :=
  mkRoute "GET" "/empty" ["empty"] [] None no_content_with_body.

Definition quiet_route : Route :=
  mkRoute "GET" "/quiet" ["quiet"] [] None silent.

(** The first route of the example, as [_register] stores it. *)
Definition create_post_route : Route :=
  mkRoute "POST" "/posts" ["posts"] [] (Some PostSchema) created.

(** The request object of a GET request without parameters, query or body. *)
Definition bare_request : Request := mkRequest [] [] VNull.

(** Two routes without parameters. *)
Definition literal_api : MockApi :=
  get (post (mkMockApi (Some seedData) []) "/posts" (Some PostSchema) created)
      "/posts" None list_posts.

(** A rule that declares lengths but no type. *)
Definition untyped_rule : Rule :=
  mkRule None false (Some 5%Z) (Some 8%Z) None None None None.

(** A post that satisfies [PostSchema], and the same with one more field. *)
Definition good_post : obj :=
  [("title", VStr "A New Post"); ("content", VStr "text");
   ("status", VStr "draft"); ("userId", VStr "user-1")].

Definition good_post_with_extra : obj :=
  good_post ++ [("admin", VBool true)].

(** Six posts, five of them drafts, with titles out of order. *)
Definition titled (id st title : string) : obj :=
  [("id", VStr id); ("status", VStr st); ("title", VStr title)].

Definition six_posts : list obj :=
  [titled "p1" "draft" "e"; titled "p2" "published" "x";
   titled "p3" "draft" "c"; titled "p4" "draft" "a";
   titled "p5" "draft" "d"; titled "p6" "draft" "b"].

(** The drafts by title, ascending, one page of them. *)
Definition drafts_by_title (pg lim : Z) : Query :=
  mkQuery [("status", VStr "draft")] [("title", "asc")]
          (mkPaginate (Some pg) (Some lim)).

(** Three records whose keys are the number 2, the string "b" and the
    number 1: "b" is neither below nor above a number. *)
Definition key_two : obj := [("k", VNum (Some 2%Z))].
Definition key_b : obj := [("k", VStr "b")].
Definition key_one : obj := [("k", VNum (Some 1%Z))].
Definition mixed_keys : list obj := [key_two; key_b; key_one].

(** U+FF5E, one code unit, and U+1F600, a surrogate pair, by their UTF-8
    bytes. *)
Definition fullwidth_tilde : string :=
  String (ascii_of_nat 239)
    (String (ascii_of_nat 189) (String (ascii_of_nat 158) EmptyString)).
Definition grinning_face : string :=
  String (ascii_of_nat 240)
    (String (ascii_of_nat 159)
       (String (ascii_of_nat 152) (String (ascii_of_nat 128) EmptyString))).

(** A handler that sets the status 65736, which is 200 modulo 2^16, and one
    that sets 65536, which is 0. *)
Definition wrapped_status : Handler :=
  fun req res store => mkHandlerRun (Normal tt) (status 65736 res) store.

Definition zero_status : Handler :=
  fun req res store => mkHandlerRun (Normal tt) (status 65536 res) store.

Definition wrapping_api : MockApi :=
  get (get (mkMockApi (Some seedData) [])
           "/wrapped" None wrapped_status)
      "/zero" None zero_status.

Definition zero_route : Route :=
  mkRoute "GET" "/zero" ["zero"] [] None zero_status.

End Sample.

(* ------------------------------------------------------------------------- *)
(** * 6. Notions used to state the properties                                  *)
(* ------------------------------------------------------------------------- *)

Section Notions.

Context {Num : JSNumber} {Json : JSONParser}.

(** What one turn of the loop of [_findRoute] makes of a route: skipped or
    mismatched ([Normal None]), matched with its parameters, or thrown. *)
Definition route_try (route : Route) (reqMethod : string)
           (requestSegments : list string) : completion (option obj) :=
  if negb (String.eqb (method route) reqMethod)
     || negb (List.length (pathSegments route)
              =? List.length requestSegments)%nat
  then Normal None
  else match_segments (pathSegments route) requestSegments [].

(** The string has no escape: no ["%"] occurs in it. *)
Fixpoint no_percent (s : string) : bool :=
  match s with
  | EmptyString => true
  | String c rest => negb (Ascii.eqb c "%") && no_percent rest
  end.

(** What matching a route segment against a request segment requires. *)
Definition segment_agrees (routeSegment requestSegment : string) : Prop :=
  if startsWith_colon routeSegment
  then exists decoded, decodeURIComponent requestSegment = Normal decoded
  else routeSegment = requestSegment.

(** A response the [Response] constructor accepts. *)
Definition well_formed (r : Response) : Prop :=
  (200 <= resp_status r <= 599)%Z /\
  (resp_body r <> None -> null_body_status (resp_status r) = false).

(** The filter in the words of its description: a record is kept when, for
    every key of the filter map, its value at the key loosely equals the
    value of the filter. *)
Definition keeps (flt item : obj) : bool :=
  forallb (fun key => loose_eq (obj_get item key) (obj_get flt key)) (keys flt).

Definition filtered (records : list obj) (flt : obj) : list obj :=
  List.filter (keeps flt) records.

(** The record has no property of that name. *)
Definition lacks (item : obj) (key : string) : Prop := ~ In key (keys item).

(** The order [<] induces on the elements of [l] is a strict weak order: the
    condition under which a comparator built from it is consistent. *)
Definition strict_weak_on {A : Type} (lt : A -> A -> bool) (l : list A) : Prop :=
  (forall a b, In a l -> In b l -> lt a b = true -> lt b a = false) /\
  (forall a b c, In a l -> In b l -> In c l ->
                 lt a b = true -> lt b c = true -> lt a c = true) /\
  (forall a b c, In a l -> In b l -> In c l ->
                 lt a b = false -> lt b a = false ->
                 lt b c = false -> lt c b = false ->
                 lt a c = false /\ lt c a = false).

(** [a] sorts below [b] on the key. *)
Definition key_lt (sortKey : string) (a b : obj) : bool :=
  js_lt (obj_get a sortKey) (obj_get b sortKey).

(** The shape "field name to list of strings" of an [errors] value. *)
Definition is_string (v : value) : bool :=
  match v with
  | VStr _ => true
  | _ => false
  end.

Definition is_error_map (v : value) : bool :=
  match v with
  | VObj entries =>
      forallb (fun kv => match snd kv with
                         | VArr msgs => forallb is_string msgs
                         | _ => false
                         end) entries
  | _ => false
  end.

(** [typeof data === 'object' && data !== null] *)
Definition structured (data : value) : bool :=
  String.eqb (typeof data) "object" && negb (is_nullish data).

(** The errors a field of the schema accumulates. *)
Definition errors_of (data : value) (kr : string * Rule) : list string :=
  fieldErrors (snd kr) (get_prop data (fst kr)).

(** Every entry of [errors] is the non-empty list of messages of a field of
    the schema. *)
Definition entry_ok (data : value) (sch : Schema) (kv : string * value) : Prop :=
  exists rule,
    In (fst kv, rule) sch /\
    fieldErrors rule (get_prop data (fst kv)) <> [] /\
    snd kv = VArr (map VStr (fieldErrors rule (get_prop data (fst kv)))).

(** Not above, for a comparator. *)
Definition cmp_le {A : Type} (cmp : A -> A -> Z) (a b : A) : Prop :=
  (cmp a b <= 0)%Z.

(** Counting a condition. *)
Definition b2n (b : bool) : nat := if b then 1%nat else 0%nat.

(** The query [q] with a page number and a page size. *)
Definition on_page (q : Query) (pg lim : Z) : Query :=
  mkQuery (filter q) (sort_by q) (mkPaginate (Some pg) (Some lim)).

(** The query [q] without pagination. *)
Definition unpaged (q : Query) : Query :=
  mkQuery (filter q) (sort_by q) no_paginate.

(** The fields of the schema that accumulate an error, in schema order, each
    with the array of its messages. *)
Definition failing_fields (data : value) (sch : Schema) : obj :=
  map (fun kr => (fst kr, VArr (map VStr (errors_of data kr))))
      (List.filter (fun kr => match errors_of data kr with
                              | [] => false
                              | _ :: _ => true
                              end) sch).

(** The last value an entry list binds to a name. *)
Fixpoint last_entry (entries : list (string * string)) (k : string)
  : option string :=
  match entries with
  | [] => None
  | (k', v) :: rest =>
      match last_entry rest k with
      | Some v' => Some v'
      | None => if String.eqb k k' then Some v else None
      end
  end.

(** No segment of the route pattern is a parameter. *)
Definition literal_only (segs : list string) : bool :=
  forallb (fun seg => negb (startsWith_colon seg)) segs.

(** The response of the catch block. *)
Definition internal_error : Response :=
  mkResponse 500 "Internal Server Error" "application/json"
             (Some (JsonText (VObj [("message", VStr "Internal Server Error")]))).

(** What [fetch] returns once it has called the handler. *)
Definition after_handler (run : HandlerRun) : completion Response :=
  match run_outcome run with
  | Normal _ =>
      match build (run_res run) with
      | Normal r => Normal r
      | Throw _ => Normal internal_error
      end
  | Throw _ => Normal internal_error
  end.

End Notions.

(* ------------------------------------------------------------------------- *)
(** * 7. Routing                                                               *)
(* ------------------------------------------------------------------------- *)

Section Routing.

Context {Num : JSNumber} {Json : JSONParser}.

Lemma find_route_in_cons (route : Route) (rest : list Route)
      (m : string) (segs : list string) :
  find_route_in (route :: rest) m segs =
  match route_try route m segs with
  | Normal (Some params) => Normal (Some (route, params))
  | Normal None => find_route_in rest m segs
  | Throw e => Throw e
  end.
Proof.
  unfold route_try; simpl.
  destruct (negb (String.eqb (method route) m)
            || negb (List.length (pathSegments route) =? List.length segs)%nat);
    [reflexivity|].
  destruct (match_segments (pathSegments route) segs []) as [[p|]|e];
    reflexivity.
Qed.

(** Routes that are skipped or mismatched do not affect the lookup. *)
Lemma find_route_in_skip (pre rest : list Route) (m : string)
      (segs : list string) :
  (forall r, In r pre -> route_try r m segs = Normal None) ->
  find_route_in (pre ++ rest) m segs = find_route_in rest m segs.
Proof.
  induction pre as [|r pre IH]; intros Hpre; [reflexivity|].
  rewrite <- app_comm_cons, find_route_in_cons.
  rewrite (Hpre r (or_introl eq_refl)).
  apply IH. intros r' Hr'. apply Hpre. now right.
Qed.

(** A returned pair names a registered route, which is the first one the loop
    does not skip or mismatch. *)
Lemma find_route_in_sound (rs : list Route) (m : string) (segs : list string)
      (route : Route) (ps : obj) :
  find_route_in rs m segs = Normal (Some (route, ps)) ->
  exists pre post,
    rs = pre ++ route :: post /\
    (forall r, In r pre -> route_try r m segs = Normal None) /\
    route_try route m segs = Normal (Some ps).
Proof.
  induction rs as [|r rs IH]; intros H; [discriminate|].
  rewrite find_route_in_cons in H.
  destruct (route_try r m segs) as [[p|]|e] eqn:E; try discriminate.
  - injection H as -> ->. exists [], rs. repeat split; [|exact E].
    intros r' [].
  - destruct (IH H) as (pre & post & -> & Hpre & Hr).
    exists (r :: pre), post. repeat split; [|exact Hr].
    intros r' [<-|Hin]; [exact E|now apply Hpre].
Qed.

(** *** What a match means *)

Lemma obj_get_set_same (o : obj) (k : string) (v : value) :
  obj_get (obj_set o k v) k = v.
Proof.
  induction o as [|[k0 v0] o IH]; cbn.
  - now rewrite String.eqb_refl.
  - destruct (String.eqb k k0) eqn:E; cbn; rewrite E; [reflexivity|exact IH].
Qed.

Lemma obj_get_set_other (o : obj) (k k' : string) (v : value) :
  k <> k' -> obj_get (obj_set o k' v) k = obj_get o k.
Proof.
  intros Hne. induction o as [|[k0 v0] o IH]; cbn.
  - apply String.eqb_neq in Hne. now rewrite Hne.
  - destruct (String.eqb_spec k' k0) as [->|Hk]; cbn.
    + apply String.eqb_neq in Hne. now rewrite Hne.
    + now rewrite IH.
Qed.

Lemma match_segments_cons (r : string) (rs : list string) (q : string)
      (qs : list string) (p : obj) :
  match_segments (r :: rs) (q :: qs) p =
  if startsWith_colon r then
    match decodeURIComponent q with
    | Normal d => match_segments rs qs (obj_set p (substring1 r) (VStr d))
    | Throw e => Throw e
    end
  else if String.eqb r q then match_segments rs qs p else Normal None.
Proof. reflexivity. Qed.

(** A match pairs every route segment with a request segment it agrees
    with. *)
Lemma match_segments_agree (rs qs : list string) (p ps : obj) :
  List.length rs = List.length qs ->
  match_segments rs qs p = Normal (Some ps) ->
  Forall2 segment_agrees rs qs.
Proof.
  revert qs p. induction rs as [|r rs IH]; intros [|q qs] p Hlen;
    try discriminate; [constructor|].
  rewrite match_segments_cons. injection Hlen as Hlen.
  unfold segment_agrees at 1.
  destruct (startsWith_colon r) eqn:Hcolon.
  - destruct (decodeURIComponent q) as [d|e] eqn:Hd; [|discriminate].
    intros H. constructor.
    + unfold segment_agrees. rewrite Hcolon. now exists d.
    + exact (IH qs _ Hlen H).
  - destruct (String.eqb_spec r q) as [->|Hne]; [|discriminate].
    intros H. constructor.
    + unfold segment_agrees. now rewrite Hcolon.
    + exact (IH qs _ Hlen H).
Qed.

(** Parameters keep what no later parameter segment overwrites. *)
Lemma match_segments_keeps (rs qs : list string) (p ps : obj) (name : string) :
  (forall r, In r rs -> startsWith_colon r = true -> substring1 r <> name) ->
  match_segments rs qs p = Normal (Some ps) ->
  obj_get ps name = obj_get p name.
Proof.
  revert qs p. induction rs as [|r rs IH]; intros qs p Hother; cbn.
  - now intros [= <-].
  - assert (Hrest : forall r', In r' rs -> startsWith_colon r' = true ->
                              substring1 r' <> name)
      by (intros r' Hr'; apply Hother; now right).
    destruct (startsWith_colon r) eqn:Hcolon.
    + destruct (decodeURIComponent _) as [d|e]; cbn; [|discriminate].
      intros H. rewrite (IH _ _ Hrest H).
      apply obj_get_set_other. intros ->.
      now apply (Hother r (or_introl eq_refl) Hcolon).
    + destruct qs as [|q qs]; [discriminate|].
      destruct (String.eqb r q); [|discriminate].
      apply (IH _ _ Hrest).
Qed.

(** The value captured under a parameter name is the decoded request
    segment at the place of the last parameter segment of that name. *)
Lemma match_segments_captures (pre post qpre qpost : list string)
      (r q d : string) (p ps : obj) :
  List.length pre = List.length qpre ->
  startsWith_colon r = true ->
  decodeURIComponent q = Normal d ->
  (forall r', In r' post -> startsWith_colon r' = true ->
              substring1 r' <> substring1 r) ->
  match_segments (pre ++ r :: post) (qpre ++ q :: qpost) p = Normal (Some ps) ->
  obj_get ps (substring1 r) = VStr d.
Proof.
  intros Hlen Hcolon Hd Hlast. revert qpre p Hlen.
  induction pre as [|r0 pre IH]; intros [|q0 qpre] p Hlen; try discriminate.
  - cbn [app]. rewrite match_segments_cons, Hcolon, Hd. intros H.
    rewrite (match_segments_keeps _ _ _ Hlast H).
    apply obj_get_set_same.
  - injection Hlen as Hlen. cbn [app]. rewrite match_segments_cons.
    destruct (startsWith_colon r0).
    + destruct (decodeURIComponent q0) as [d0|e]; [|discriminate].
      apply IH, Hlen.
    + destruct (String.eqb r0 q0); [|discriminate].
      apply IH, Hlen.
Qed.

(** A route the lookup matched has the method and the segment count of the
    request and agrees with it segment by segment. *)
Lemma route_try_sound (route : Route) (m : string) (segs : list string)
      (ps : obj) :
  route_try route m segs = Normal (Some ps) ->
  method route = m /\
  List.length (pathSegments route) = List.length segs /\
  Forall2 segment_agrees (pathSegments route) segs.
Proof.
  unfold route_try.
  destruct (String.eqb_spec (method route) m) as [Hm|Hm]; cbn [negb orb];
    [|discriminate].
  destruct (Nat.eqb_spec (List.length (pathSegments route))
                         (List.length segs)) as [Hlen|Hlen]; cbn [negb];
    [|discriminate].
  intros H. repeat split; [exact Hm|exact Hlen|].
  exact (match_segments_agree _ _ _ Hlen H).
Qed.

(** *** When the lookup returns *)

Lemma decode_without_escape (s : string) :
  no_percent s = true -> decodeURIComponent s = Normal s.
Proof.
  intros H. unfold decodeURIComponent.
  assert (Hd : decode_from s 0 128 191 = Some s).
  { induction s as [|c s IH]; [reflexivity|].
    cbn [no_percent] in H. apply andb_prop in H as [Hc Hs].
    apply negb_true_iff in Hc. cbn [decode_from]. rewrite Hc.
    now rewrite (IH Hs). }
  now rewrite Hd.
Qed.

Lemma match_segments_returns (rs qs : list string) (p : obj) :
  List.length rs = List.length qs ->
  (forall q, In q qs -> exists d, decodeURIComponent q = Normal d) ->
  exists m, match_segments rs qs p = Normal m.
Proof.
  revert qs p. induction rs as [|r rs IH]; intros [|q qs] p Hlen Hdec;
    try discriminate.
  - now exists (Some p).
  - injection Hlen as Hlen. rewrite match_segments_cons.
    assert (Hrest : forall q', In q' qs ->
                               exists d, decodeURIComponent q' = Normal d)
      by (intros q' Hq'; apply Hdec; now right).
    destruct (startsWith_colon r).
    + destruct (Hdec q (or_introl eq_refl)) as [d ->]. now apply IH.
    + destruct (String.eqb r q); [now apply IH|now exists None].
Qed.

(** With request segments that all decode, the lookup returns a route or
    "no match". *)
Lemma find_route_in_returns (rs : list Route) (m : string)
      (segs : list string) :
  (forall q, In q segs -> exists d, decodeURIComponent q = Normal d) ->
  exists found, find_route_in rs m segs = Normal found.
Proof.
  intros Hdec. induction rs as [|route rs IH]; [now exists None|].
  rewrite find_route_in_cons. unfold route_try.
  destruct (negb (String.eqb (method route) m)) eqn:Hm; cbn [orb];
    [exact IH|].
  destruct (Nat.eqb_spec (List.length (pathSegments route))
                         (List.length segs)) as [Hlen|Hlen]; cbn [negb];
    [|exact IH].
  destruct (match_segments_returns (pathSegments route) segs [] Hlen Hdec)
    as [[ps|] ->]; [now eexists|exact IH].
Qed.

Lemma split_no_percent (s : string) :
  no_percent s = true -> Forall (fun q => no_percent q = true) (split "/" s).
Proof.
  induction s as [|c s IH]; intros H.
  - repeat constructor.
  - cbn [no_percent] in H. apply andb_prop in H as [Hc Hs].
    specialize (IH Hs). cbn [split].
    destruct (Ascii.eqb c "/").
    + now constructor.
    + destruct (split "/" s) as [|seg segs].
      * constructor; [cbn; now rewrite Hc|constructor].
      * inversion IH as [|? ? Hseg Hsegs]. constructor; [|exact Hsegs].
        cbn. now rewrite Hc, Hseg.
Qed.

(** A path without escapes never makes [_findRoute] throw. *)
Lemma findRoute_returns_without_escape (api : MockApi) (m urlPath : string) :
  no_percent urlPath = true ->
  exists found, _findRoute api m urlPath = Normal found.
Proof.
  intros H. apply find_route_in_returns. intros q Hq.
  exists q. apply decode_without_escape.
  unfold segments in Hq. apply filter_In in Hq as [Hq _].
  pose proof (split_no_percent urlPath H) as Hall.
  rewrite Forall_forall in Hall. now apply Hall.
Qed.

(** C2: with [/a/:x] registered before [/a/b] under one method, a request
    to [/a/b] is matched to the route [/a/:x] with [x = "b"]; in general
    the first route in registration order that matches in full is the one
    returned, whatever is registered after it. *)
Theorem findRoute_first_registered_wins :
  (forall (d : option Store) (m : string) (s1 s2 : option Schema)
          (h1 h2 : Handler),
      let api := _register (_register (mkMockApi d []) m "/a/:x" s1 h1)
                           m "/a/b" s2 h2 in
      _findRoute api (toUpperCase m) "/a/b" =
      Normal (Some (mkRoute (toUpperCase m) "/a/:x" ["a"; ":x"] [("x", 1%nat)]
                            s1 h1,
                    [("x", VStr "b")]))) /\
  (forall (pre post : list Route) (route : Route) (m : string)
          (segs : list string) (ps : obj),
      (forall r, In r pre -> route_try r m segs = Normal None) ->
      route_try route m segs = Normal (Some ps) ->
      find_route_in (pre ++ route :: post) m segs = Normal (Some (route, ps))).
Proof.
  split.
  - intros d m s1 s2 h1 h2. cbv zeta.
    unfold _findRoute, _register. cbn [routes app].
    rewrite find_route_in_cons. unfold route_try. cbn [method pathSegments].
    rewrite String.eqb_refl. reflexivity.
  - intros pre post route m segs ps Hpre Hroute.
    rewrite find_route_in_skip by exact Hpre.
    rewrite find_route_in_cons, Hroute. reflexivity.
Qed.

End Routing.

(* ------------------------------------------------------------------------- *)
(** * 8. Dispatching                                                           *)
(* ------------------------------------------------------------------------- *)

Section Dispatching.

Context {Num : JSNumber} {Json : JSONParser}.

Lemma build_well_formed (res : ResponseHelper) (r : Response) :
  build res = Normal r -> well_formed r.
Proof.
  unfold build, well_formed. cbv zeta.
  set (st := to_unsigned_short (_status res)).
  destruct ((200 <=? st)%Z && (st <=? 599)%Z) eqn:Hrange;
    cbn [negb]; [|discriminate].
  apply andb_prop in Hrange as [Hlo Hhi].
  apply Z.leb_le in Hlo, Hhi.
  destruct (_body res) as [b|] eqn:Hbody.
  - destruct (null_body_status st) eqn:Hnull; [discriminate|].
    intros [= <-]. cbn. auto.
  - intros [= <-]. cbn. split; [auto|]. intros H. now contradiction H.
Qed.

Lemma reply_ok (code : Z) (data : obj) :
  (200 <= code <= 599)%Z -> null_body_status code = false ->
  reply code (VObj data) =
  Normal (mkResponse code (statusTextMap code) "application/json"
                     (Some (JsonText (VObj data)))).
Proof.
  intros [Hlo Hhi] Hnull. unfold reply, build. cbn.
  unfold to_unsigned_short. rewrite Z.mod_small by lia.
  apply Z.leb_le in Hlo, Hhi. rewrite Hlo, Hhi, Hnull. reflexivity.
Qed.

Lemma validated_method_iff (m : string) :
  validated_method m = true <-> In m ["POST"; "PUT"; "PATCH"].
Proof.
  unfold validated_method. rewrite !orb_true_iff, !String.eqb_eq. cbn.
  intuition congruence.
Qed.

(** C1, as amended: before [init()] has run [fetch] throws; afterwards,
    whenever the route lookup returns, [fetch] resolves to a well-formed
    response, whatever the body: status 404 when no route matches, status
    400 when the validation of the body fails, status 500 when the handler
    it called threw. *)
Theorem fetch_responds_once_initialised :
  (forall (api : MockApi) (pathname : string)
          (searchParams : list (string * string)) (options : FetchOptions),
      db api = None ->
      fetch_result (fetch api pathname searchParams options) =
      Throw (Error "MockApi is not initialized. Call .init() before use.")) /\
  (forall (api : MockApi) (store : Store) (pathname : string)
          (searchParams : list (string * string)) (options : FetchOptions)
          (m : option (Route * obj)),
      db api = Some store ->
      _findRoute api (request_method options) pathname = Normal m ->
      exists r : Response,
        fetch_result (fetch api pathname searchParams options) = Normal r /\
        well_formed r /\
        (m = None -> resp_status r = 404%Z) /\
        (forall route ps sch,
            m = Some (route, ps) -> schema route = Some sch ->
            In (request_method options) ["POST"; "PUT"; "PATCH"] ->
            success (validateSchema (parse_body (opt_body options)) sch)
            = false ->
            resp_status r = 400%Z) /\
        (forall route req e,
            fetch_calls (fetch api pathname searchParams options)
            = [(route, req)] ->
            run_outcome (handler route req new_ResponseHelper store) = Throw e ->
            resp_status r = 500%Z)).
Proof.
  split.
  - intros api pathname searchParams options Hdb.
    unfold fetch. rewrite Hdb. reflexivity.
  - intros api store pathname searchParams options m Hdb Hfind.
    unfold fetch. rewrite Hdb. cbv zeta. rewrite Hfind.
    destruct m as [[route ps]|].
    + set (body := parse_body (opt_body options)).
      set (req := mkRequest ps (fromEntries searchParams []) body).
      destruct (match schema route with
                | Some sch =>
                    if validated_method (request_method options)
                    then Some (validateSchema body sch)
                    else None
                | None => None
                end) as [[ok errs]|] eqn:Hval.
      * destruct ok.
        -- (* validated *)
           cbn [fetch_result fetch_calls].
           assert (H400 : forall route' ps' sch,
                      Some (route, ps) = Some (route', ps') ->
                      schema route' = Some sch ->
                      In (request_method options) ["POST"; "PUT"; "PATCH"] ->
                      success (validateSchema body sch) = false -> False).
           { intros route' ps' sch [= <- <-] Hsch Hmeth Hfail.
             apply validated_method_iff in Hmeth.
             rewrite Hsch, Hmeth in Hval. injection Hval as Hval.
             rewrite Hval in Hfail. discriminate. }
           destruct (run_outcome (handler route req new_ResponseHelper store))
             as [u|e0] eqn:Hrun;
             [destruct (build (run_res (handler route req new_ResponseHelper
                                                store))) as [r|e1] eqn:Hb|].
           ++ exists r. split; [reflexivity|].
              split; [exact (build_well_formed _ Hb)|].
              split; [discriminate|]. split.
              ** intros route' ps' sch Hm Hsch Hmeth Hfail.
                 destruct (H400 route' ps' sch Hm Hsch Hmeth Hfail).
              ** intros route' req' e' [= <- <-] Hthrow.
                 rewrite Hrun in Hthrow. discriminate.
           ++ eexists. rewrite reply_ok by (cbn; first [lia | reflexivity]).
              split; [reflexivity|]. split; [split; [cbn; lia|intros _; reflexivity]|].
              split; [discriminate|]. split.
              ** intros route' ps' sch Hm Hsch Hmeth Hfail.
                 destruct (H400 route' ps' sch Hm Hsch Hmeth Hfail).
              ** reflexivity.
           ++ eexists. rewrite reply_ok by (cbn; first [lia | reflexivity]).
              split; [reflexivity|]. split; [split; [cbn; lia|intros _; reflexivity]|].
              split; [discriminate|]. split.
              ** intros route' ps' sch Hm Hsch Hmeth Hfail.
                 destruct (H400 route' ps' sch Hm Hsch Hmeth Hfail).
              ** reflexivity.
        -- (* validation failed *)
           cbn [fetch_result fetch_calls].
           eexists. rewrite reply_ok by (cbn; first [lia | reflexivity]).
           split; [reflexivity|]. split; [split; [cbn; lia|intros _; reflexivity]|].
           split; [discriminate|]. split; [reflexivity|discriminate].
      * (* no validation *)
        cbn [fetch_result fetch_calls].
        assert (H400 : forall route' ps' sch,
                   Some (route, ps) = Some (route', ps') ->
                   schema route' = Some sch ->
                   In (request_method options) ["POST"; "PUT"; "PATCH"] ->
                   False).
        { intros route' ps' sch [= <- <-] Hsch Hmeth.
          apply validated_method_iff in Hmeth.
          rewrite Hsch, Hmeth in Hval. discriminate. }
        destruct (run_outcome (handler route req new_ResponseHelper store))
          as [u|e0] eqn:Hrun;
          [destruct (build (run_res (handler route req new_ResponseHelper
                                             store))) as [r|e1] eqn:Hb|].
        -- exists r. split; [reflexivity|].
           split; [exact (build_well_formed _ Hb)|].
           split; [discriminate|]. split.
           ++ intros route' ps' sch Hm Hsch Hmeth _.
              destruct (H400 route' ps' sch Hm Hsch Hmeth).
           ++ intros route' req' e' [= <- <-] Hthrow.
              rewrite Hrun in Hthrow. discriminate.
        -- eexists. rewrite reply_ok by (cbn; first [lia | reflexivity]).
           split; [reflexivity|]. split; [split; [cbn; lia|intros _; reflexivity]|].
           split; [discriminate|]. split.
           ++ intros route' ps' sch Hm Hsch Hmeth _.
              destruct (H400 route' ps' sch Hm Hsch Hmeth).
           ++ reflexivity.
        -- eexists. rewrite reply_ok by (cbn; first [lia | reflexivity]).
           split; [reflexivity|]. split; [split; [cbn; lia|intros _; reflexivity]|].
           split; [discriminate|]. split.
           ++ intros route' ps' sch Hm Hsch Hmeth _.
              destruct (H400 route' ps' sch Hm Hsch Hmeth).
           ++ reflexivity.
    + cbn [fetch_result fetch_calls].
      eexists. rewrite reply_ok by (cbn; first [lia | reflexivity]).
      split; [reflexivity|]. split; [split; [cbn; lia|intros _; reflexivity]|].
      split; [reflexivity|]. split; discriminate.
Qed.

(** C6: when the matched route has a schema, the method is POST, PUT or
    PATCH and [validateSchema] rejects the parsed body, [fetch] resolves to
    the status-400 response that carries the errors of the validation; no
    handler is called and the store is left as it was. *)
Theorem fetch_validation_failure_400 :
  forall (api : MockApi) (store : Store) (pathname : string)
         (searchParams : list (string * string)) (options : FetchOptions)
         (route : Route) (ps : obj) (sch : Schema),
    db api = Some store ->
    _findRoute api (request_method options) pathname
    = Normal (Some (route, ps)) ->
    schema route = Some sch ->
    In (request_method options) ["POST"; "PUT"; "PATCH"] ->
    success (validateSchema (parse_body (opt_body options)) sch) = false ->
    let run := fetch api pathname searchParams options in
    fetch_result run =
    Normal (mkResponse 400 "Bad Request" "application/json"
              (Some (JsonText
                 (VObj [("message", VStr "Validation Error");
                        ("errors",
                         errors (validateSchema
                                   (parse_body (opt_body options)) sch))]))))
    /\ fetch_calls run = []
    /\ fetch_store run = Some store.
Proof.
  intros api store pathname searchParams options route ps sch
         Hdb Hfind Hsch Hmeth Hfail run.
  subst run. unfold fetch. rewrite Hdb. cbv zeta. rewrite Hfind, Hsch.
  apply validated_method_iff in Hmeth. rewrite Hmeth.
  destruct (validateSchema (parse_body (opt_body options)) sch)
    as [ok errs] eqn:Hv.
  cbn in Hfail. subst ok. cbn [fetch_result fetch_calls fetch_store errors].
  rewrite reply_ok by (cbn; first [lia | reflexivity]).
  repeat split.
Qed.

End Dispatching.

(* ------------------------------------------------------------------------- *)
(** * 9. Sorting with a comparator                                             *)
(* ------------------------------------------------------------------------- *)

Section Sorting.

Variable A : Type.
Variable cmp : A -> A -> Z.

Lemma insert_sorted_perm (x : A) (l : list A) :
  Permutation (x :: l) (insert_sorted cmp x l).
Proof.
  induction l as [|y l IH]; cbn; [reflexivity|].
  destruct (cmp x y <=? 0)%Z; [reflexivity|].
  rewrite perm_swap. now constructor.
Qed.

Lemma sort_perm (l : list A) : Permutation l (sort cmp l).
Proof.
  induction l as [|x l IH]; cbn; [constructor|].
  rewrite <- insert_sorted_perm. now constructor.
Qed.

Lemma sort_In (l : list A) (x : A) : In x (sort cmp l) <-> In x l.
Proof.
  split; apply Permutation_in; [symmetry|]; apply sort_perm.
Qed.

(** The elements the comparator is consistent on. *)
Variable dom : list A.

Hypothesis cmp_total :
  forall a b, In a dom -> In b dom -> (0 < cmp a b)%Z -> cmp_le cmp b a.
Hypothesis cmp_trans :
  forall a b c, In a dom -> In b dom -> In c dom ->
                cmp_le cmp a b -> cmp_le cmp b c -> cmp_le cmp a c.
Hypothesis cmp_equiv :
  forall z a b, In z dom -> In a dom -> In b dom ->
                cmp z a = 0%Z -> cmp z b = 0%Z -> (cmp a b <= 0)%Z.

Lemma insert_sorted_sorted (x : A) (l : list A) :
  In x dom -> incl l dom ->
  StronglySorted (cmp_le cmp) l ->
  StronglySorted (cmp_le cmp) (insert_sorted cmp x l).
Proof.
  intros Hx Hl Hs. induction Hs as [|y l Hs IH Hy]; cbn.
  - repeat constructor.
  - assert (Hyd : In y dom) by (apply Hl; now left).
    assert (Hld : incl l dom) by (intros z Hz; apply Hl; now right).
    destruct (cmp x y <=? 0)%Z eqn:E.
    + apply Z.leb_le in E. constructor; [now constructor|].
      constructor; [exact E|].
      rewrite Forall_forall in Hy |- *. intros z Hz.
      apply (cmp_trans Hx Hyd (Hld z Hz) E (Hy z Hz)).
    + apply Z.leb_gt in E. constructor; [now apply IH|].
      apply (Permutation_Forall (insert_sorted_perm x l)).
      constructor; [|exact Hy].
      now apply cmp_total.
Qed.

Lemma sort_sorted (l : list A) :
  incl l dom -> StronglySorted (cmp_le cmp) (sort cmp l).
Proof.
  induction l as [|x l IH]; intros Hl; cbn; [constructor|].
  apply insert_sorted_sorted.
  - apply Hl. now left.
  - intros z Hz. apply Hl. right. exact (proj1 (sort_In l z) Hz).
  - apply IH. intros z Hz. apply Hl. now right.
Qed.

Lemma insert_sorted_stable (z x : A) (l : list A) :
  In z dom -> In x dom -> incl l dom ->
  List.filter (fun y => (cmp z y =? 0)%Z) (insert_sorted cmp x l) =
  List.filter (fun y => (cmp z y =? 0)%Z) (x :: l).
Proof.
  intros Hz Hx. induction l as [|y l IH]; intros Hl; [reflexivity|].
  assert (Hyd : In y dom) by (apply Hl; now left).
  assert (Hld : incl l dom) by (intros w Hw; apply Hl; now right).
  cbn [insert_sorted]. destruct (cmp x y <=? 0)%Z eqn:E; [reflexivity|].
  apply Z.leb_gt in E.
  cbn [List.filter]. rewrite (IH Hld). cbn [List.filter].
  destruct (cmp z x =? 0)%Z eqn:Ex, (cmp z y =? 0)%Z eqn:Ey; try reflexivity.
  apply Z.eqb_eq in Ex, Ey.
  pose proof (cmp_equiv Hz Hx Hyd Ex Ey). lia.
Qed.

Lemma sort_stable (z : A) (l : list A) :
  In z dom -> incl l dom ->
  List.filter (fun y => (cmp z y =? 0)%Z) (sort cmp l) =
  List.filter (fun y => (cmp z y =? 0)%Z) l.
Proof.
  intros Hz. induction l as [|x l IH]; intros Hl; [reflexivity|].
  cbn [sort]. rewrite insert_sorted_stable.
  - cbn [List.filter]. rewrite IH; [reflexivity|].
    intros w Hw. apply Hl. now right.
  - exact Hz.
  - apply Hl. now left.
  - intros w Hw. apply Hl. right. exact (proj1 (sort_In l w) Hw).
Qed.

End Sorting.

(* ------------------------------------------------------------------------- *)
(** * 10. Queries                                                              *)
(* ------------------------------------------------------------------------- *)

Section Queries.

Context {Num : JSNumber}.

Lemma filter_matches_keeps (item flt : obj) (ks : list string) :
  filter_matches item flt ks =
  forallb (fun key => loose_eq (obj_get item key) (obj_get flt key)) ks.
Proof.
  induction ks as [|k ks IH]; cbn; [reflexivity|].
  unfold loose_neq.
  destruct (loose_eq (obj_get item k) (obj_get flt k)); cbn; auto.
Qed.

(** The cursor walk computes the filter of the description. *)
Lemma scan_filtered (records : list obj) (flt : obj) (acc : list obj) :
  scan records flt acc = acc ++ filtered records flt.
Proof.
  revert acc. induction records as [|item rest IH]; intros acc; cbn.
  - now rewrite app_nil_r.
  - rewrite filter_matches_keeps. fold (keeps flt item).
    destruct (keeps flt item); rewrite IH; [|reflexivity].
    now rewrite <- app_assoc.
Qed.

Lemma obj_get_lacks (item : obj) (key : string) :
  lacks item key -> obj_get item key = VUndef.
Proof.
  unfold lacks, keys. induction item as [|[k v] item IH]; cbn; [reflexivity|].
  intros H. destruct (String.eqb_spec key k) as [->|Hne].
  - contradiction H. now left.
  - apply IH. intros Hin. apply H. now right.
Qed.

Lemma loose_eq_undefined (v : value) :
  v <> VUndef -> v <> VNull -> loose_eq VUndef v = false.
Proof. destruct v; cbn; congruence. Qed.

(** [slice] on a page: from a start inside or past the array, [lim]
    elements at most. *)
Lemma slice_page {A : Type} (l : list A) (start lim : Z) :
  (0 <= start)%Z -> (0 < lim)%Z ->
  slice l start (start + lim) =
  firstn (Z.to_nat lim) (skipn (Z.to_nat start) l).
Proof.
  intros Hs Hl. unfold slice, slice_index.
  set (len := Z.of_nat (List.length l)).
  assert (Hlen : (0 <= len)%Z) by (subst len; lia).
  destruct (start <? 0)%Z eqn:E1; [apply Z.ltb_lt in E1; lia|].
  destruct (start + lim <? 0)%Z eqn:E2; [apply Z.ltb_lt in E2; lia|].
  destruct (Z_le_gt_dec len start) as [Hout|Hin].
  - rewrite Z.min_r by lia.
    rewrite !skipn_all2 by (subst len; lia).
    now rewrite !firstn_nil.
  - rewrite (Z.min_l start) by lia.
    destruct (Z_le_gt_dec (start + lim) len) as [Hfit|Hover].
    + rewrite Z.min_l by lia. f_equal. lia.
    + rewrite Z.min_r by lia.
      rewrite !firstn_all2; [reflexivity| |];
        rewrite length_skipn; subst len; lia.
Qed.

(** The order on sequences of code units is a strict total order. *)
Lemma units_ltb_asym (a b : list N) :
  units_ltb a b = true -> units_ltb b a = false.
Proof.
  revert b. induction a as [|x a IH]; intros [|y b]; cbn; try congruence.
  destruct (N.ltb_spec x y), (N.ltb_spec y x), (N.eqb_spec x y),
           (N.eqb_spec y x); try lia; try congruence; auto.
Qed.

Lemma units_ltb_trans (a b c : list N) :
  units_ltb a b = true -> units_ltb b c = true -> units_ltb a c = true.
Proof.
  revert b c. induction a as [|x a IH]; intros [|y b] [|z c]; cbn;
    try congruence.
  destruct (N.ltb_spec x y), (N.ltb_spec y z), (N.ltb_spec x z),
           (N.eqb_spec x y), (N.eqb_spec y z), (N.eqb_spec x z);
    try lia; try congruence; eauto.
Qed.

Lemma units_ltb_tie (a b : list N) :
  units_ltb a b = false -> units_ltb b a = false -> a = b.
Proof.
  revert b. induction a as [|x a IH]; intros [|y b]; cbn; try congruence.
  destruct (N.ltb_spec x y), (N.ltb_spec y x), (N.eqb_spec x y),
           (N.eqb_spec y x); try lia; try congruence.
  intros Hab Hba. subst y. f_equal. now apply IH.
Qed.

Lemma units_ltb_irrefl (a : list N) : units_ltb a a = false.
Proof.
  induction a as [|x a IH]; cbn; [reflexivity|].
  now rewrite N.ltb_irrefl, N.eqb_refl.
Qed.

(** When every record carries a string under the sort key, the key order is
    a strict weak order on the records. *)
Lemma string_keys_strict_weak (sortKey : string) (l : list obj) :
  (forall a, In a l -> exists s, obj_get a sortKey = VStr s) ->
  strict_weak_on (key_lt sortKey) l.
Proof.
  intros Hstr. unfold strict_weak_on, key_lt, js_lt. split; [|split].
  - intros a b Ha Hb.
    destruct (Hstr a Ha) as [s ->], (Hstr b Hb) as [t ->]. cbn.
    apply units_ltb_asym.
  - intros a b c Ha Hb Hc.
    destruct (Hstr a Ha) as [s ->], (Hstr b Hb) as [t ->],
             (Hstr c Hc) as [u ->]. cbn.
    apply units_ltb_trans.
  - intros a b c Ha Hb Hc.
    destruct (Hstr a Ha) as [s ->], (Hstr b Hb) as [t ->],
             (Hstr c Hc) as [u ->]. cbn. unfold string_lt.
    intros Hab Hba Hbc Hcb.
    rewrite (units_ltb_tie _ _ Hab Hba), (units_ltb_tie _ _ Hbc Hcb).
    split; apply units_ltb_irrefl.
Qed.

(** The comparator in terms of the key order. *)
Lemma sort_cmp_unfold (sortKey order : string) (a b : obj) :
  sort_cmp sortKey order a b =
  if key_lt sortKey a b
  then (if String.eqb order "asc" then (-1) else 1)%Z
  else if key_lt sortKey b a
       then (if String.eqb order "asc" then 1 else (-1))%Z
       else 0%Z.
Proof. reflexivity. Qed.

Lemma sort_cmp_zero (sortKey order : string) (a b : obj) :
  (sort_cmp sortKey order a b =? 0)%Z =
  negb (key_lt sortKey a b) && negb (key_lt sortKey b a).
Proof.
  rewrite sort_cmp_unfold.
  destruct (key_lt sortKey a b), (key_lt sortKey b a),
           (String.eqb order "asc"); reflexivity.
Qed.

Section Consistent.

Variables (sortKey order : string) (dom : list obj).
Hypothesis Hswo : strict_weak_on (key_lt sortKey) dom.

Let lt := key_lt sortKey.

Lemma key_lt_cases (a b c : obj) :
  In a dom -> In b dom -> In c dom ->
  lt a b = false -> lt b c = false -> lt a c = false.
Proof.
  destruct Hswo as (Hasym & Htrans & Htie). unfold lt.
  intros Ha Hb Hc Hab Hbc.
  destruct (key_lt sortKey a c) eqn:Hac; [|reflexivity].
  destruct (key_lt sortKey b a) eqn:Hba.
  - pose proof (Htrans b a c Hb Ha Hc Hba Hac). congruence.
  - destruct (key_lt sortKey c b) eqn:Hcb.
    + pose proof (Htrans a c b Ha Hc Hb Hac Hcb). congruence.
    + destruct (Htie a b c Ha Hb Hc Hab Hba Hbc Hcb) as [H _]. congruence.
Qed.

Lemma sort_cmp_total (a b : obj) :
  In a dom -> In b dom ->
  (0 < sort_cmp sortKey order a b)%Z -> (sort_cmp sortKey order b a <= 0)%Z.
Proof.
  destruct Hswo as (Hasym & _ & _). intros Ha Hb.
  rewrite !sort_cmp_unfold.
  pose proof (Hasym a b Ha Hb) as H1. pose proof (Hasym b a Hb Ha) as H2.
  destruct (key_lt sortKey a b), (key_lt sortKey b a),
           (String.eqb order "asc"); try lia;
    try (specialize (H1 eq_refl); discriminate);
    try (specialize (H2 eq_refl); discriminate).
Qed.

(** Not above, in the direction of the sort. *)
Lemma sort_cmp_le (a b : obj) :
  In a dom -> In b dom ->
  ((sort_cmp sortKey order a b <= 0)%Z <->
   (if String.eqb order "asc" then lt b a else lt a b) = false).
Proof.
  destruct Hswo as (Hasym & _ & _). intros Ha Hb.
  rewrite sort_cmp_unfold. unfold lt.
  pose proof (Hasym a b Ha Hb) as H1. pose proof (Hasym b a Hb Ha) as H2.
  destruct (key_lt sortKey a b), (key_lt sortKey b a),
           (String.eqb order "asc"); split; intros H; try lia;
    try reflexivity; try discriminate;
    try (specialize (H1 eq_refl); discriminate);
    try (specialize (H2 eq_refl); discriminate).
Qed.

Lemma sort_cmp_trans (a b c : obj) :
  In a dom -> In b dom -> In c dom ->
  (sort_cmp sortKey order a b <= 0)%Z -> (sort_cmp sortKey order b c <= 0)%Z ->
  (sort_cmp sortKey order a c <= 0)%Z.
Proof.
  intros Ha Hb Hc.
  rewrite (sort_cmp_le a b Ha Hb), (sort_cmp_le b c Hb Hc),
          (sort_cmp_le a c Ha Hc).
  destruct (String.eqb order "asc"); intros Hab Hbc.
  - exact (key_lt_cases c b a Hc Hb Ha Hbc Hab).
  - exact (key_lt_cases a b c Ha Hb Hc Hab Hbc).
Qed.

Lemma sort_cmp_equiv (z a b : obj) :
  In z dom -> In a dom -> In b dom ->
  sort_cmp sortKey order z a = 0%Z -> sort_cmp sortKey order z b = 0%Z ->
  (sort_cmp sortKey order a b <= 0)%Z.
Proof.
  destruct Hswo as (_ & _ & Htie). intros Hz Ha Hb Hza Hzb.
  apply Z.eqb_eq in Hza, Hzb. rewrite sort_cmp_zero in Hza, Hzb.
  apply andb_prop in Hza as [Hza Haz], Hzb as [Hzb Hbz].
  apply negb_true_iff in Hza, Haz, Hzb, Hbz.
  destruct (Htie a z b Ha Hz Hb Haz Hza Hzb Hbz) as [Hab Hba].
  rewrite sort_cmp_unfold, Hab, Hba. lia.
Qed.

End Consistent.

Lemma StronglySorted_weaken {A : Type} (P Q : A -> A -> Prop) (l : list A) :
  (forall a b, In a l -> In b l -> P a b -> Q a b) ->
  StronglySorted P l -> StronglySorted Q l.
Proof.
  intros Hpq Hs. induction Hs as [|x l Hs IH Hx]; constructor.
  - apply IH. intros a b Ha Hb. apply Hpq; now right.
  - rewrite Forall_forall in Hx |- *. intros y Hy.
    apply Hpq; [now left|now right|now apply Hx].
Qed.

Lemma find_unfold (records : list obj) (q : Query) :
  find records q =
  paginate_step (paginate q)
                (sort_step (sort_by q) (filtered records (filter q))).
Proof. unfold find. now rewrite scan_filtered. Qed.

Lemma sort_step_perm (srt : list (string * string)) (l : list obj) :
  Permutation l (sort_step srt l).
Proof.
  unfold sort_step. destruct srt as [|[k dir] more]; [reflexivity|].
  destruct (Boolean_string k); [apply sort_perm|reflexivity].
Qed.

(** What the sort step achieves when the key order is consistent: the
    records in the order of the direction, ties in their earlier order. *)
Lemma sort_step_ordered (sortKey dir : string) (more : list (string * string))
      (l : list obj) :
  Boolean_string sortKey = true ->
  strict_weak_on (key_lt sortKey) l ->
  (toLowerCase dir = "asc" ->
   StronglySorted (fun a b => key_lt sortKey b a = false)
                  (sort_step ((sortKey, dir) :: more) l)) /\
  (toLowerCase dir = "desc" ->
   StronglySorted (fun a b => key_lt sortKey a b = false)
                  (sort_step ((sortKey, dir) :: more) l)) /\
  (forall x, In x l ->
     List.filter (fun y => negb (key_lt sortKey x y)
                           && negb (key_lt sortKey y x))
                 (sort_step ((sortKey, dir) :: more) l) =
     List.filter (fun y => negb (key_lt sortKey x y)
                           && negb (key_lt sortKey y x)) l).
Proof.
  intros Hkey Hswo. unfold sort_step. rewrite Hkey.
  set (cmp := sort_cmp sortKey (toLowerCase dir)).
  set (out := sort cmp l).
  assert (Hsorted : StronglySorted (cmp_le cmp) out).
  { apply (@sort_sorted _ cmp l).
    - intros a b. apply (sort_cmp_total _ Hswo).
    - intros a b c. apply (sort_cmp_trans _ Hswo).
    - apply incl_refl. }
  assert (Hin : forall a, In a out -> In a l).
  { intros a. apply sort_In. }
  split; [|split].
  - intros Hasc. revert Hsorted. apply StronglySorted_weaken.
    intros a b Ha Hb Hle.
    apply (sort_cmp_le (toLowerCase dir) Hswo a b (Hin a Ha) (Hin b Hb))
      in Hle.
    now rewrite Hasc in Hle.
  - intros Hdesc. revert Hsorted. apply StronglySorted_weaken.
    intros a b Ha Hb Hle.
    apply (sort_cmp_le (toLowerCase dir) Hswo a b (Hin a Ha) (Hin b Hb))
      in Hle.
    now rewrite Hdesc in Hle.
  - intros x Hx.
    rewrite (filter_ext _ (fun y => (cmp x y =? 0)%Z))
      by (intros y; subst cmp; now rewrite sort_cmp_zero).
    rewrite (filter_ext (fun y => negb (key_lt sortKey x y)
                                  && negb (key_lt sortKey y x))
                        (fun y => (cmp x y =? 0)%Z))
      by (intros y; subst cmp; now rewrite sort_cmp_zero).
    apply sort_stable with (dom := l).
    + intros z a b. apply (sort_cmp_equiv _ Hswo).
    + exact Hx.
    + apply incl_refl.
Qed.

(** C3: [find] cuts the page out of the filtered and then sorted sequence.
    That sequence is a rearrangement of the records that pass the filter: it
    is those records in their order when no sort is given and, for a sort
    key whose order is consistent on them, it is in the order of the
    direction with ties in their earlier order.  With a page [pg >= 1] and a
    limit [lim > 0], [find] returns its elements at the positions
    [(pg-1)*lim] up to, not including, [pg*lim]; a page that starts past the
    end gives the empty sequence; without pagination the whole sequence
    comes back. *)
Theorem find_paginates_after_filter_and_sort :
  forall (records : list obj) (q : Query),
    let kept := filtered records (filter q) in
    let base := sort_step (sort_by q) kept in
    (Permutation kept base /\
     (sort_by q = [] -> base = kept) /\
     (forall sortKey dir more,
         sort_by q = (sortKey, dir) :: more ->
         Boolean_string sortKey = true ->
         strict_weak_on (key_lt sortKey) kept ->
         (toLowerCase dir = "asc" ->
          StronglySorted (fun a b => key_lt sortKey b a = false) base) /\
         (toLowerCase dir = "desc" ->
          StronglySorted (fun a b => key_lt sortKey a b = false) base) /\
         (forall x, In x kept ->
            List.filter (fun y => negb (key_lt sortKey x y)
                                  && negb (key_lt sortKey y x)) base =
            List.filter (fun y => negb (key_lt sortKey x y)
                                  && negb (key_lt sortKey y x)) kept))) /\
    (forall pg lim : Z,
        page (paginate q) = Some pg -> limit (paginate q) = Some lim ->
        (1 <= pg)%Z -> (0 < lim)%Z ->
        find records q =
        firstn (Z.to_nat lim) (skipn (Z.to_nat ((pg - 1) * lim)) base) /\
        (forall i : nat,
            nth_error (find records q) i =
            if (Z.of_nat i <? lim)%Z
            then nth_error base (Z.to_nat ((pg - 1) * lim) + i)
            else None) /\
        ((Z.of_nat (List.length base) <= (pg - 1) * lim)%Z ->
         find records q = [])) /\
    (page (paginate q) = None \/ limit (paginate q) = None ->
     find records q = base).
Proof.
  intros records q kept base. split; [|split].
  - split; [apply sort_step_perm|]. split.
    + intros Hnone. subst base. now rewrite Hnone.
    + intros sortKey dir more Hsort Hkey Hswo. subst base. rewrite Hsort.
      now apply sort_step_ordered.
  - intros pg lim Hpg Hlim Hp Hl.
    assert (Hfind : find records q =
                    firstn (Z.to_nat lim)
                           (skipn (Z.to_nat ((pg - 1) * lim)) base)).
    { rewrite find_unfold. fold kept. fold base. unfold paginate_step.
      rewrite Hpg, Hlim. cbn [truthy_Z].
      destruct (pg =? 0)%Z eqn:E1; [apply Z.eqb_eq in E1; lia|].
      destruct (lim =? 0)%Z eqn:E2; [apply Z.eqb_eq in E2; lia|].
      cbn [negb andb]. rewrite Z.max_r by lia.
      apply slice_page; nia. }
    split; [exact Hfind|]. split.
    + intros i. rewrite Hfind, nth_error_firstn, nth_error_skipn.
      destruct (Z.of_nat i <? lim)%Z eqn:E.
      * apply Z.ltb_lt in E.
        replace (i <? Z.to_nat lim)%nat with true; [reflexivity|].
        symmetry. apply Nat.ltb_lt. lia.
      * apply Z.ltb_ge in E.
        replace (i <? Z.to_nat lim)%nat with false; [reflexivity|].
        symmetry. apply Nat.ltb_ge. lia.
    + intros Hout. rewrite Hfind, skipn_all2 by lia. apply firstn_nil.
  - intros Hnone. rewrite find_unfold. fold kept. fold base.
    unfold paginate_step.
    destruct Hnone as [-> | ->]; [reflexivity|].
    now destruct (page (paginate q)).
Qed.

(** C4, as amended: without sort and pagination [find] returns the records,
    in their original order, whose value at every key of the filter loosely
    equals the value of the filter; a record that lacks a key of the filter
    is left out when the value of the filter at that key is neither
    [undefined] nor [null]. *)
Theorem find_filters_by_loose_equality :
  forall (records : list obj) (flt : obj),
    find records (mkQuery flt [] no_paginate) = filtered records flt /\
    (forall (item : obj) (key : string),
        In key (keys flt) -> lacks item key ->
        obj_get flt key <> VUndef -> obj_get flt key <> VNull ->
        ~ In item (find records (mkQuery flt [] no_paginate))).
Proof.
  intros records flt.
  assert (Hfind : find records (mkQuery flt [] no_paginate)
                  = filtered records flt) by (now rewrite find_unfold).
  split; [exact Hfind|].
  intros item key Hkey Hlacks Hundef Hnull Hin.
  rewrite Hfind in Hin. unfold filtered in Hin.
  apply filter_In in Hin as [_ Hkeeps].
  unfold keeps in Hkeeps. rewrite forallb_forall in Hkeeps.
  specialize (Hkeeps key Hkey).
  rewrite (obj_get_lacks Hlacks), loose_eq_undefined in Hkeeps by assumption.
  discriminate.
Qed.

(** C7, as amended: with a sort key and no pagination, [find] returns the
    filtered records rearranged by the comparator of the key: two strings
    compare in the lexicographic order of their UTF-16 code units, two
    numbers as numbers, and two values neither of which is below the other
    compare as equal.  When the key order is a strict weak order on the
    filtered records (the comparator is consistent), as it is when every
    key is a string, the result is in ascending order for the direction
    "asc" and in descending order for "desc", and records that tie on the
    key keep the order they had before the sort. *)
Theorem find_sorts_stably :
  forall (records : list obj) (flt : obj) (sortKey dir : string),
    Boolean_string sortKey = true ->
    let base := filtered records flt in
    let out := find records (mkQuery flt [(sortKey, dir)] no_paginate) in
    let cmp := sort_cmp sortKey (toLowerCase dir) in
    (forall a b s t,
        obj_get a sortKey = VStr s -> obj_get b sortKey = VStr t ->
        key_lt sortKey a b = units_ltb (utf16_units s) (utf16_units t)) /\
    (forall a b m n,
        obj_get a sortKey = VNum m -> obj_get b sortKey = VNum n ->
        key_lt sortKey a b = num_ltb m n) /\
    (forall a b,
        key_lt sortKey a b = false -> key_lt sortKey b a = false ->
        cmp a b = 0%Z) /\
    Permutation base out /\
    ((forall a, In a base -> exists s, obj_get a sortKey = VStr s) ->
     strict_weak_on (key_lt sortKey) base) /\
    (strict_weak_on (key_lt sortKey) base ->
     (toLowerCase dir = "asc" ->
      StronglySorted (fun a b => key_lt sortKey b a = false) out) /\
     (toLowerCase dir = "desc" ->
      StronglySorted (fun a b => key_lt sortKey a b = false) out) /\
     (forall x, In x base ->
        List.filter (fun y => negb (key_lt sortKey x y)
                              && negb (key_lt sortKey y x)) out =
        List.filter (fun y => negb (key_lt sortKey x y)
                              && negb (key_lt sortKey y x)) base)).
Proof.
  intros records flt sortKey dir Hkey base out cmp.
  assert (Hout : out = sort_step [(sortKey, dir)] base).
  { subst out. now rewrite find_unfold. }
  split; [|split; [|split; [|split; [|split]]]].
  - intros a b s t Ha Hb. unfold key_lt, js_lt. now rewrite Ha, Hb.
  - intros a b m n Ha Hb. unfold key_lt, js_lt. now rewrite Ha, Hb.
  - intros a b Hab Hba. subst cmp. now rewrite sort_cmp_unfold, Hab, Hba.
  - rewrite Hout. apply sort_step_perm.
  - apply string_keys_strict_weak.
  - intros Hswo. rewrite Hout. now apply sort_step_ordered.
Qed.

End Queries.

(* ------------------------------------------------------------------------- *)
(** * 11. Validation                                                           *)
(* ------------------------------------------------------------------------- *)

Section Validation.

Context {Num : JSNumber}.

Lemma In_obj_set (o : obj) (k k' : string) (v v' : value) :
  In (k, v) (obj_set o k' v') -> (k = k' /\ v = v') \/ In (k, v) o.
Proof.
  induction o as [|[k0 v0] o IH]; cbn.
  - intros [[= <- <-]|[]]. now left.
  - destruct (String.eqb_spec k' k0) as [->|Hne]; cbn.
    + intros [[= <- <-]|Hin]; [now left|right; now right].
    + intros [Heq|Hin]; [right; now left|].
      destruct (IH Hin) as [H|H]; [now left|right; now right].
Qed.

Lemma obj_set_not_nil (o : obj) (k : string) (v : value) : obj_set o k v <> [].
Proof.
  destruct o as [|[k0 v0] o]; cbn; [discriminate|].
  destruct (String.eqb k k0); discriminate.
Qed.

Lemma validate_fields_not_nil (data : value) (sch : Schema) (errs : obj) :
  errs <> [] -> validate_fields data sch errs <> [].
Proof.
  revert errs. induction sch as [|[key rule] rest IH]; intros errs Hne; cbn;
    [exact Hne|].
  apply IH. destruct (fieldErrors rule (get_prop data key)); [exact Hne|].
  apply obj_set_not_nil.
Qed.

Lemma validate_fields_nil (data : value) (sch : Schema) :
  validate_fields data sch [] = [] <->
  Forall (fun kr => errors_of data kr = []) sch.
Proof.
  induction sch as [|[key rule] rest IH]; cbn.
  - split; [constructor|reflexivity].
  - unfold errors_of at 1. cbn [fst snd].
    destruct (fieldErrors rule (get_prop data key)) as [|e fe] eqn:E.
    + rewrite IH. split; intros H.
      * constructor; [exact E|exact H].
      * now inversion H.
    + split; intros H.
      * exfalso. revert H. apply validate_fields_not_nil. discriminate.
      * inversion H as [|? ? Hhd Htl]. unfold errors_of in Hhd. cbn in Hhd.
        congruence.
Qed.

Lemma validate_fields_entries (data : value) (sch0 sch : Schema) (errs : obj) :
  incl sch sch0 ->
  (forall kv, In kv errs -> entry_ok data sch0 kv) ->
  forall kv, In kv (validate_fields data sch errs) -> entry_ok data sch0 kv.
Proof.
  revert errs. induction sch as [|[key rule] rest IH]; intros errs Hincl Herrs;
    cbn; [exact Herrs|].
  apply IH.
  - intros x Hx. apply Hincl. now right.
  - destruct (fieldErrors rule (get_prop data key)) as [|e fe] eqn:E;
      [exact Herrs|].
    intros [k v] Hin. apply In_obj_set in Hin as [[-> ->]|Hin].
    + exists rule. cbn [fst snd]. rewrite E. repeat split.
      * apply Hincl. now left.
      * discriminate.
    + now apply Herrs.
Qed.

Lemma entries_error_map (data : value) (sch : Schema) (errs : obj) :
  (forall kv, In kv errs -> entry_ok data sch kv) ->
  is_error_map (VObj errs) = true.
Proof.
  intros H. cbn. apply forallb_forall. intros kv Hkv.
  destruct (H kv Hkv) as (rule & _ & _ & ->).
  apply forallb_forall. intros v Hv.
  apply in_map_iff in Hv as (s & <- & _). reflexivity.
Qed.

Lemma obj_set_fresh (o : obj) (k : string) (v : value) :
  ~ In k (keys o) -> obj_set o k v = o ++ [(k, v)].
Proof.
  unfold keys. induction o as [|[k0 v0] o IH]; cbn; [reflexivity|].
  intros Hnot. destruct (String.eqb_spec k k0) as [->|Hne].
  - contradiction Hnot. now left.
  - rewrite IH; [reflexivity|]. intros Hin. apply Hnot. now right.
Qed.

Lemma failing_fields_cons (data : value) (kr : string * Rule) (sch : Schema) :
  failing_fields data (kr :: sch) =
  match errors_of data kr with
  | [] => failing_fields data sch
  | _ :: _ => (fst kr, VArr (map VStr (errors_of data kr)))
              :: failing_fields data sch
  end.
Proof.
  unfold failing_fields. cbn [List.filter].
  destruct (errors_of data kr) eqn:E; [reflexivity|].
  cbn [map]. now rewrite E.
Qed.

Lemma validate_fields_failing (data : value) (sch : Schema) (errs : obj) :
  NoDup (keys errs ++ map fst sch) ->
  validate_fields data sch errs = errs ++ failing_fields data sch.
Proof.
  revert errs. induction sch as [|[key rule] rest IH]; intros errs Hnd.
  - cbn. now rewrite app_nil_r.
  - cbn [validate_fields]. rewrite failing_fields_cons.
    unfold errors_of at 1 2. cbn [fst snd].
    cbn [map fst] in Hnd.
    assert (Hfresh : ~ In key (keys errs)).
    { apply NoDup_remove_2 in Hnd. intros Hin. apply Hnd.
      apply in_or_app. now left. }
    destruct (fieldErrors rule (get_prop data key)) as [|e fe] eqn:E.
    + apply IH. now apply NoDup_remove_1 in Hnd.
    + rewrite (obj_set_fresh errs key _ Hfresh), IH.
      * now rewrite <- app_assoc.
      * unfold keys. rewrite map_app. cbn [map fst].
        rewrite <- app_assoc. exact Hnd.
Qed.

Lemma keys_obj_set (o : obj) (k k' : string) (v : value) :
  In k (keys (obj_set o k' v)) <-> k = k' \/ In k (keys o).
Proof.
  unfold keys. induction o as [|[k0 v0] o IH]; cbn.
  - intuition congruence.
  - destruct (String.eqb_spec k' k0) as [->|Hne]; cbn.
    + intuition congruence.
    + rewrite IH. intuition congruence.
Qed.

Lemma validate_fields_keys_mono (data : value) (sch : Schema) (errs : obj)
      (key : string) :
  In key (keys errs) -> In key (keys (validate_fields data sch errs)).
Proof.
  revert errs. induction sch as [|[k rule] rest IH]; intros errs Hin;
    [exact Hin|].
  cbn [validate_fields]. apply IH.
  destruct (fieldErrors rule (get_prop data k)); [exact Hin|].
  apply keys_obj_set. now right.
Qed.

(** Every field of the schema that accumulates an error gets an entry. *)
Lemma validate_fields_complete (data : value) (sch : Schema) (errs : obj)
      (key : string) (rule : Rule) :
  In (key, rule) sch -> fieldErrors rule (get_prop data key) <> [] ->
  In key (keys (validate_fields data sch errs)).
Proof.
  revert errs. induction sch as [|[k r] rest IH]; intros errs Hin Hfail;
    [destruct Hin|].
  cbn [validate_fields]. destruct Hin as [[= -> ->]|Hin].
  - apply validate_fields_keys_mono.
    destruct (fieldErrors rule (get_prop data key)); [congruence|].
    apply keys_obj_set. now left.
  - now apply IH.
Qed.

(** C9, as amended: on a structured record [validateSchema] succeeds exactly
    when no field of the schema accumulated an error; on success [errors]
    is null; on failure [errors] maps field names to non-empty lists of
    message strings: every failing field of the schema has an entry, every
    entry holds the messages of a field of the schema in the order the
    checks produced them, and for a schema without repeated field names
    [errors] is exactly the failing fields, in schema order, with their
    messages.  On anything else it fails with the one entry [_global],
    whose value is a single message string, not a list. *)
Theorem validateSchema_result_shape :
  forall (data : value) (sch : Schema),
    let r := validateSchema data sch in
    (structured data = true ->
     (success r = true <-> Forall (fun kr => errors_of data kr = []) sch) /\
     (success r = true -> errors r = VNull) /\
     (success r = false ->
      exists errs,
        errors r = VObj errs /\ errs <> [] /\
        is_error_map (errors r) = true /\
        (forall kv, In kv errs -> entry_ok data sch kv) /\
        (forall key rule,
            In (key, rule) sch ->
            fieldErrors rule (get_prop data key) <> [] ->
            In key (keys errs)) /\
        (NoDup (map fst sch) -> errs = failing_fields data sch))) /\
    (structured data = false ->
     success r = false /\
     errors r =
     VObj [("_global", VStr "Request body was expected to be an object.")]).
Proof.
  intros data sch r. subst r. unfold validateSchema, structured. split.
  - intros Hs. apply andb_prop in Hs as [Hobj Hnn].
    rewrite Hobj. apply negb_true_iff in Hnn. rewrite Hnn. cbn [negb orb].
    assert (Hentries : forall kv, In kv (validate_fields data sch []) ->
                                  entry_ok data sch kv).
    { apply validate_fields_entries; [apply incl_refl|intros kv []]. }
    assert (Hcomplete : forall key rule,
               In (key, rule) sch ->
               fieldErrors rule (get_prop data key) <> [] ->
               In key (keys (validate_fields data sch []))).
    { intros key rule. apply validate_fields_complete. }
    assert (Hexact : NoDup (map fst sch) ->
                     validate_fields data sch [] = failing_fields data sch).
    { intros Hnd. now rewrite (validate_fields_failing data sch []). }
    pose proof (validate_fields_nil data sch) as Hnil.
    unfold keys at 1 2. rewrite length_map.
    destruct (validate_fields data sch []) as [|e errs] eqn:E;
      cbn [List.length Nat.eqb negb success errors].
    + split; [|split].
      * split; intros _; [now apply Hnil|reflexivity].
      * reflexivity.
      * discriminate.
    + split; [|split].
      * split; [discriminate|]. intros H. apply Hnil in H. discriminate.
      * discriminate.
      * intros _. exists (e :: errs). repeat split.
        -- discriminate.
        -- now apply (entries_error_map (data := data) (sch := sch)).
        -- exact Hentries.
        -- exact Hcomplete.
        -- exact Hexact.
  - intros Hs. apply andb_false_iff in Hs.
    assert (H : negb (String.eqb (typeof data) "object") || is_nullish data
                = true).
    { destruct Hs as [->| Hn]; [reflexivity|].
      apply negb_false_iff in Hn. rewrite Hn. apply orb_true_r. }
    rewrite H. split; reflexivity.
Qed.

Lemma keys_validate_fields (data : value) (sch : Schema) (errs : obj)
      (key : string) :
  In key (keys (validate_fields data sch errs)) ->
  In key (keys errs) \/
  exists rule, In (key, rule) sch /\ fieldErrors rule (get_prop data key) <> [].
Proof.
  revert errs. induction sch as [|[k rule] rest IH]; intros errs; cbn;
    [now left|].
  intros Hin. apply IH in Hin as [Hin|(rule' & Hr & Hne)].
  - destruct (fieldErrors rule (get_prop data k)) as [|e fe] eqn:E;
      [now left|].
    unfold keys in Hin. apply in_map_iff in Hin as ([k' v'] & <- & Hin).
    apply In_obj_set in Hin as [[-> ->]|Hin].
    + right. exists rule. split; [now left|]. cbn. rewrite E. discriminate.
    + left. unfold keys. apply in_map_iff. now exists (k', v').
  - right. exists rule'. split; [now right|exact Hne].
Qed.

(** C10: a field whose rule is not required and whose value is null or
    missing gets no error, whatever type, length, pattern, range or enum
    constraint the rule declares; the [errors] of the result have no entry
    for it. *)
Theorem validateSchema_optional_null_passes :
  forall (data : value) (sch : Schema) (key : string),
    structured data = true ->
    (forall rule, In (key, rule) sch -> rule_required rule = false) ->
    get_prop data key = VNull \/ get_prop data key = VUndef ->
    (forall rule, In (key, rule) sch ->
                  fieldErrors rule (get_prop data key) = []) /\
    (forall errs, errors (validateSchema data sch) = VObj errs ->
                  lacks errs key).
Proof.
  intros data sch key Hs Hopt Hnull.
  assert (Hfe : forall rule, In (key, rule) sch ->
                             fieldErrors rule (get_prop data key) = []).
  { intros rule Hin. unfold fieldErrors. rewrite (Hopt rule Hin).
    destruct Hnull as [-> | ->]; reflexivity. }
  split; [exact Hfe|].
  intros errs. unfold validateSchema, structured in *.
  apply andb_prop in Hs as [Hobj Hnn]. apply negb_true_iff in Hnn.
  rewrite Hobj, Hnn. cbn [negb orb errors].
  destruct (negb (List.length (keys (validate_fields data sch [])) =? 0)%nat);
    [|discriminate].
  intros [= <-] Hin.
  apply keys_validate_fields in Hin as [[]|(rule & Hr & Hne)].
  apply Hne, Hfe, Hr.
Qed.

Lemma js_length_nonneg (s : string) : (0 <= js_length s)%Z.
Proof.
  induction s as [|c s IH]; cbn [js_length]; [lia|].
  destruct (nat_of_ascii c <? 128)%nat; [lia|].
  destruct (nat_of_ascii c <? 192)%nat; [lia|].
  destruct (nat_of_ascii c <? 240)%nat; lia.
Qed.

(** What the loop body does with a value that is present. *)
Lemma fieldErrors_present (rule : Rule) (v : value) :
  is_nullish v = false ->
  fieldErrors rule v =
  (if type_mismatch rule v
   then [("Type must be '" ++ match rule_type rule with
                              | Some t => t
                              | None => EmptyString
                              end ++ "'")%string]
   else type_checks rule v) ++ enum_check rule v.
Proof.
  intros Hv. unfold fieldErrors. rewrite Hv, andb_false_r. reflexivity.
Qed.

(** A value of the wrong type: the type error alone, then the enum check. *)
Lemma fieldErrors_type_mismatch (rule : Rule) (v : value) (t : string) :
  is_nullish v = false -> rule_type rule = Some t -> t <> EmptyString ->
  typeof v <> t ->
  fieldErrors rule v =
  ("Type must be '" ++ t ++ "'")%string :: enum_check rule v.
Proof.
  intros Hv Ht Hne Hty. rewrite (fieldErrors_present rule v Hv).
  unfold type_mismatch. rewrite Ht.
  destruct t as [|c t]; [congruence|]. cbn [Boolean_string andb].
  apply String.eqb_neq in Hty. rewrite Hty. reflexivity.
Qed.

(** One message for each violated constraint of a string, as long as the
    maximal length is not zero. *)
Lemma string_checks_count (rule : Rule) (s : string) :
  rule_maxLength rule <> Some 0%Z ->
  List.length (string_checks rule s) =
  (b2n (match rule_minLength rule with
        | Some n => (js_length s <? n)%Z
        | None => false
        end) +
   b2n (match rule_maxLength rule with
        | Some n => (n <? js_length s)%Z
        | None => false
        end) +
   b2n (match rule_pattern rule with
        | Some test => negb (test s)
        | None => false
        end))%nat.
Proof.
  intros Hmax. unfold string_checks. rewrite !length_app, Nat.add_assoc.
  pose proof (js_length_nonneg s) as Hlen.
  f_equal; [f_equal|].
  - destruct (rule_minLength rule) as [n|]; [|reflexivity]. cbn [truthy_Z].
    destruct (n =? 0)%Z eqn:E; cbn [negb andb].
    + apply Z.eqb_eq in E. subst n.
      destruct (js_length s <? 0)%Z eqn:E'; [apply Z.ltb_lt in E'; lia|].
      reflexivity.
    + now destruct (js_length s <? n)%Z.
  - destruct (rule_maxLength rule) as [n|]; [|reflexivity]. cbn [truthy_Z].
    destruct (n =? 0)%Z eqn:E; cbn [negb andb].
    + apply Z.eqb_eq in E. congruence.
    + now destruct (n <? js_length s)%Z.
  - destruct (rule_pattern rule) as [test|]; [|reflexivity].
    now destruct (test s).
Qed.

Lemma number_checks_count (rule : Rule) (n : number) :
  List.length (number_checks rule n) =
  (b2n (match rule_min rule with
        | Some m => num_ltb n m
        | None => false
        end) +
   b2n (match rule_max rule with
        | Some m => num_ltb m n
        | None => false
        end))%nat.
Proof.
  unfold number_checks. rewrite length_app. f_equal.
  - destruct (rule_min rule) as [m|]; [|reflexivity]. now destruct (num_ltb n m).
  - destruct (rule_max rule) as [m|]; [|reflexivity]. now destruct (num_ltb m n).
Qed.

End Validation.

(* ------------------------------------------------------------------------- *)
(** * Further properties of [DbWrapper.find]                                   *)
(* ------------------------------------------------------------------------- *)

Section QueryEdges.

Context {Num : JSNumber}.

Lemma In_firstn {A : Type} (n : nat) (l : list A) (x : A) :
  In x (firstn n l) -> In x l.
Proof.
  intros H. rewrite <- (firstn_skipn n l). apply in_or_app. now left.
Qed.

Lemma In_skipn {A : Type} (n : nat) (l : list A) (x : A) :
  In x (skipn n l) -> In x l.
Proof.
  intros H. rewrite <- (firstn_skipn n l). apply in_or_app. now right.
Qed.

Lemma In_slice {A : Type} (l : list A) (start stop : Z) (x : A) :
  In x (slice l start stop) -> In x l.
Proof. unfold slice. intros H. eapply In_skipn, In_firstn, H. Qed.

Lemma length_slice {A : Type} (l : list A) (start stop : Z) :
  (List.length (slice l start stop) <= List.length l)%nat.
Proof.
  unfold slice. rewrite length_firstn, length_skipn. lia.
Qed.

Lemma In_sort_step (srt : list (string * string)) (l : list obj) (x : obj) :
  In x (sort_step srt l) <-> In x l.
Proof.
  unfold sort_step. destruct srt as [|[k d] srt]; [reflexivity|].
  destruct (Boolean_string k); [apply sort_In|reflexivity].
Qed.

Lemma length_sort_step (srt : list (string * string)) (l : list obj) :
  List.length (sort_step srt l) = List.length l.
Proof.
  unfold sort_step. destruct srt as [|[k d] srt]; [reflexivity|].
  destruct (Boolean_string k); [|reflexivity].
  symmetry. apply Permutation_length, sort_perm.
Qed.

Lemma In_paginate_step (p : Paginate) (l : list obj) (x : obj) :
  In x (paginate_step p l) -> In x l.
Proof.
  unfold paginate_step. destruct (page p), (limit p); auto.
  destruct (truthy_Z (Some z) && truthy_Z (Some z0)); auto. apply In_slice.
Qed.

Lemma length_paginate_step (p : Paginate) (l : list obj) :
  (List.length (paginate_step p l) <= List.length l)%nat.
Proof.
  unfold paginate_step. destruct (page p), (limit p); auto.
  destruct (truthy_Z (Some z) && truthy_Z (Some z0)); auto.
  apply length_slice.
Qed.

Lemma length_filter_le {A : Type} (f : A -> bool) (l : list A) :
  (List.length (List.filter f l) <= List.length l)%nat.
Proof.
  induction l as [|x l IH]; cbn; [lia|]. destruct (f x); cbn; lia.
Qed.

(** Whatever the filter, the sort and the pagination, [find] returns only
    records of the store that pass the filter, and never more records than
    the store holds. *)
Theorem find_returns_only_matching_records :
  forall (records : list obj) (q : Query),
    (forall x, In x (find records q) ->
               In x records /\ keeps (filter q) x = true) /\
    (List.length (find records q) <= List.length records)%nat.
Proof.
  intros records q. rewrite find_unfold. split.
  - intros x Hx. apply In_paginate_step, In_sort_step in Hx.
    unfold filtered in Hx. now apply filter_In in Hx.
  - eapply Nat.le_trans; [apply length_paginate_step|].
    rewrite length_sort_step. apply length_filter_le.
Qed.

Lemma keeps_nil (item : obj) : keeps [] item = true.
Proof. reflexivity. Qed.

Lemma filtered_nil (records : list obj) : filtered records [] = records.
Proof.
  unfold filtered. induction records as [|x l IH]; cbn; [reflexivity|].
  now rewrite IH.
Qed.

(** A page of the result, as a piece of the unpaged result. *)
Lemma find_on_page (records : list obj) (q : Query) (pg lim : Z) :
  (1 <= pg)%Z -> (0 < lim)%Z ->
  find records (on_page q pg lim) =
  firstn (Z.to_nat lim)
         (skipn (Z.to_nat ((pg - 1) * lim)) (find records (unpaged q))).
Proof.
  intros Hpg Hlim. rewrite !find_unfold. cbn [on_page unpaged filter sort_by
                                               paginate].
  unfold paginate_step at 1. cbn [page limit truthy_Z].
  destruct (pg =? 0)%Z eqn:E1; [apply Z.eqb_eq in E1; lia|].
  destruct (lim =? 0)%Z eqn:E2; [apply Z.eqb_eq in E2; lia|].
  cbn [negb andb]. rewrite Z.max_r by lia.
  cbn [paginate_step no_paginate page limit].
  apply slice_page; nia.
Qed.

Lemma firstn_plus {A : Type} (a b : nat) (l : list A) :
  firstn (a + b) l = firstn a l ++ firstn b (skipn a l).
Proof.
  revert l. induction a as [|a IH]; intros l; [reflexivity|].
  destruct l as [|x l]; cbn.
  - now rewrite firstn_nil.
  - now rewrite IH.
Qed.

(** The pages of one size, taken in order from page 1, are consecutive
    pieces of the unpaged result: the first [n] pages together are its first
    [n * lim] records, each page holds at most [lim] records, and enough
    pages give the whole result, each record once. *)
Theorem find_pages_cover_the_result :
  forall (records : list obj) (q : Query) (lim : Z) (n : nat),
    (0 < lim)%Z ->
    let whole := find records (unpaged q) in
    let pages := map (fun p => find records (on_page q (Z.of_nat p) lim))
                     (seq 1 n) in
    List.concat pages = firstn (n * Z.to_nat lim) whole /\
    Forall (fun pg => (Z.of_nat (List.length pg) <= lim)%Z) pages /\
    ((List.length whole <= n * Z.to_nat lim)%nat -> List.concat pages = whole).
Proof.
  intros records q lim n Hlim whole pages.
  assert (Hcat : List.concat pages = firstn (n * Z.to_nat lim) whole).
  { subst pages. induction n as [|n IH]; [reflexivity|].
    rewrite seq_S, map_app, concat_app, IH. cbn [map List.concat].
    rewrite app_nil_r, find_on_page by lia. fold whole.
    replace (Z.to_nat ((Z.of_nat (1 + n) - 1) * lim))
      with (n * Z.to_nat lim)%nat by nia.
    replace (S n * Z.to_nat lim)%nat
      with (n * Z.to_nat lim + Z.to_nat lim)%nat by lia.
    now rewrite firstn_plus. }
  split; [exact Hcat|]. split.
  - subst pages. apply Forall_forall. intros pg Hpg.
    apply in_map_iff in Hpg as (p & <- & Hp). apply in_seq in Hp.
    rewrite find_on_page by lia. rewrite length_firstn. lia.
  - intros Hlen. rewrite Hcat. now apply firstn_all2.
Qed.

(** A negative page number is read as page 1, while a page number or a page
    size of 0 switches pagination off: the whole result comes back. *)
Theorem find_page_zero_or_negative :
  forall (records : list obj) (q : Query) (pg lim : Z),
    ((pg < 0)%Z ->
     find records (on_page q pg lim) = find records (on_page q 1 lim)) /\
    (pg = 0%Z \/ lim = 0%Z ->
     find records (on_page q pg lim) = find records (unpaged q)).
Proof.
  intros records q pg lim. rewrite !find_unfold.
  cbn [on_page unpaged filter sort_by paginate]. split.
  - intros Hneg. unfold paginate_step. cbn [page limit truthy_Z].
    destruct (pg =? 0)%Z eqn:E; [apply Z.eqb_eq in E; lia|].
    cbn [negb andb Z.eqb]. now rewrite Z.max_l by lia.
  - intros Hzero. unfold paginate_step. cbn [page limit truthy_Z no_paginate].
    destruct Hzero as [-> | ->]; cbn [Z.eqb negb andb]; [reflexivity|].
    now rewrite andb_false_r.
Qed.

Lemma slice_from_zero_negative {A : Type} (l : list A) (stop : Z) :
  (stop < 0)%Z ->
  slice l 0 stop = firstn (List.length l - Z.to_nat (- stop)) l.
Proof.
  intros Hstop. unfold slice, slice_index.
  change (0 <? 0)%Z with false. cbv iota.
  destruct (Z.ltb_spec stop 0); [|lia].
  rewrite Z.min_l by lia. change (Z.to_nat 0) with 0%nat. cbn [skipn].
  f_equal. lia.
Qed.

Lemma slice_backwards {A : Type} (l : list A) (start stop : Z) :
  (start < 0)%Z -> (stop <= start)%Z -> slice l start stop = [].
Proof.
  intros Hstart Hstop. unfold slice, slice_index.
  destruct (Z.ltb_spec start 0); [|lia].
  destruct (Z.ltb_spec stop 0); [|lia].
  replace (Z.to_nat (Z.max _ 0)) with 0%nat by lia. reflexivity.
Qed.

(** A negative page size is not refused: on page 1 it cuts that many records
    off the end of the result, and on every later page it gives nothing. *)
Theorem find_negative_limit :
  forall (records : list obj) (q : Query) (pg lim : Z),
    (lim < 0)%Z ->
    let whole := find records (unpaged q) in
    (pg = 1%Z ->
     find records (on_page q pg lim) =
     firstn (List.length whole - Z.to_nat (- lim)) whole) /\
    ((2 <= pg)%Z -> find records (on_page q pg lim) = []).
Proof.
  intros records q pg lim Hlim whole. subst whole. rewrite !find_unfold.
  cbn [on_page unpaged filter sort_by paginate].
  set (base := sort_step (sort_by q) (filtered records (filter q))).
  cbn [paginate_step no_paginate page limit].
  unfold paginate_step. cbn [page limit truthy_Z].
  destruct (lim =? 0)%Z eqn:E2; [apply Z.eqb_eq in E2; lia|].
  split.
  - intros ->. cbn [Z.eqb negb andb]. rewrite Z.max_l by lia.
    replace ((1 - 1) * lim)%Z with 0%Z by lia.
    replace (0 + lim)%Z with lim by lia.
    now apply slice_from_zero_negative.
  - intros Hpg.
    destruct (pg =? 0)%Z eqn:E1; [apply Z.eqb_eq in E1; lia|].
    cbn [negb andb]. rewrite Z.max_r by lia.
    apply slice_backwards; nia.
Qed.

Lemma insert_sorted_ext {A : Type} (c1 c2 : A -> A -> Z) (x : A) (l : list A) :
  (forall a b, c1 a b = c2 a b) -> insert_sorted c1 x l = insert_sorted c2 x l.
Proof.
  intros H. induction l as [|y l IH]; cbn; [reflexivity|].
  now rewrite H, IH.
Qed.

Lemma sort_ext {A : Type} (c1 c2 : A -> A -> Z) (l : list A) :
  (forall a b, c1 a b = c2 a b) -> sort c1 l = sort c2 l.
Proof.
  intros H. induction l as [|x l IH]; cbn; [reflexivity|].
  rewrite IH. now apply insert_sorted_ext.
Qed.

(** Only the first key of the sort object counts; its direction means
    ascending exactly when it reads "asc" in any letter case, and every
    other direction sorts as "desc" does; an empty key leaves the records
    unsorted. *)
Theorem find_sort_directive_edges :
  forall (records : list obj) (flt : obj) (sortKey dir : string)
         (more : list (string * string)) (p : Paginate),
    find records (mkQuery flt ((sortKey, dir) :: more) p) =
    find records (mkQuery flt [(sortKey, dir)] p) /\
    (toLowerCase dir = "asc" ->
     find records (mkQuery flt [(sortKey, dir)] p) =
     find records (mkQuery flt [(sortKey, "asc")] p)) /\
    (toLowerCase dir <> "asc" ->
     find records (mkQuery flt [(sortKey, dir)] p) =
     find records (mkQuery flt [(sortKey, "desc")] p)) /\
    (sortKey = EmptyString ->
     find records (mkQuery flt [(sortKey, dir)] p) =
     find records (mkQuery flt [] p)).
Proof.
  intros records flt sortKey dir more p. rewrite !find_unfold.
  cbn [filter sort_by paginate]. split; [reflexivity|]. split; [|split].
  - intros Hasc. unfold sort_step. now rewrite Hasc.
  - intros Hdesc. unfold sort_step. destruct (Boolean_string sortKey);
      [|reflexivity].
    f_equal. apply sort_ext. intros a b. unfold sort_cmp.
    apply String.eqb_neq in Hdesc. now rewrite Hdesc.
  - intros ->. reflexivity.
Qed.

Lemma obj_get_app_l (o1 o2 : obj) (k : string) :
  In k (keys o1) -> obj_get (o1 ++ o2) k = obj_get o1 k.
Proof.
  unfold keys. induction o1 as [|[k0 v0] o1 IH]; cbn; [intros []|].
  intros [->|Hin].
  - now rewrite String.eqb_refl.
  - destruct (String.eqb k k0); [reflexivity|now apply IH].
Qed.

Lemma obj_get_app_r (o1 o2 : obj) (k : string) :
  ~ In k (keys o1) -> obj_get (o1 ++ o2) k = obj_get o2 k.
Proof.
  unfold keys. induction o1 as [|[k0 v0] o1 IH]; cbn; [reflexivity|].
  intros Hnot. destruct (String.eqb_spec k k0) as [->|Hne].
  - contradiction Hnot. now left.
  - apply IH. intros Hin. apply Hnot. now right.
Qed.

Lemma forallb_agree {A : Type} (f g : A -> bool) (l : list A) :
  (forall x, In x l -> f x = g x) -> forallb f l = forallb g l.
Proof.
  induction l as [|x l IH]; intros H; cbn; [reflexivity|].
  rewrite (H x (or_introl eq_refl)), IH; [reflexivity|].
  intros y Hy. apply H. now right.
Qed.

Lemma keeps_app (f1 f2 item : obj) :
  (forall k, In k (keys f2) -> ~ In k (keys f1)) ->
  keeps (f1 ++ f2) item = keeps f1 item && keeps f2 item.
Proof.
  intros Hdisj. unfold keeps, keys. rewrite map_app, forallb_app. f_equal.
  - apply forallb_agree. intros k Hk.
    now rewrite (obj_get_app_l f1 f2 k Hk).
  - apply forallb_agree. intros k Hk.
    now rewrite (obj_get_app_r f1 f2 k (Hdisj k Hk)).
Qed.

Lemma filter_twice {A : Type} (f g : A -> bool) (l : list A) :
  List.filter g (List.filter f l) = List.filter (fun x => f x && g x) l.
Proof.
  induction l as [|x l IH]; cbn; [reflexivity|].
  destruct (f x); cbn; [destruct (g x)|]; now rewrite IH.
Qed.

(** Filters compose: running [find] with a second filter on the result of a
    filtered [find] gives what one [find] with both filters gives, when the
    two filters name different keys. *)
Theorem find_filters_compose :
  forall (records : list obj) (f1 f2 : obj) (srt : list (string * string))
         (p : Paginate),
    (forall k, In k (keys f2) -> ~ In k (keys f1)) ->
    find (find records (mkQuery f1 [] no_paginate)) (mkQuery f2 srt p) =
    find records (mkQuery (f1 ++ f2) srt p).
Proof.
  intros records f1 f2 srt p Hdisj. rewrite !find_unfold.
  cbn [filter sort_by paginate sort_step paginate_step no_paginate page limit].
  do 2 f_equal. unfold filtered. rewrite filter_twice.
  apply filter_ext. intros x. symmetry. now apply keeps_app.
Qed.

End QueryEdges.

(* ------------------------------------------------------------------------- *)
(** * Further properties of [validateSchema]                                   *)
(* ------------------------------------------------------------------------- *)

Section ValidationEdges.

Context {Num : JSNumber}.

(** On a structured record and a schema without repeated field names, the
    [errors] of the result list the failing fields in the order of the
    schema, each with exactly the messages its checks produced; the result
    succeeds, with [errors] null, exactly when no field fails. *)
Theorem validateSchema_errors_in_schema_order :
  forall (data : value) (sch : Schema),
    structured data = true ->
    NoDup (map fst sch) ->
    validateSchema data sch =
    match failing_fields data sch with
    | [] => mkValidationResult true VNull
    | failing => mkValidationResult false (VObj failing)
    end.
Proof.
  intros data sch Hs Hnd. unfold validateSchema, structured in *.
  apply andb_prop in Hs as [Hobj Hnn]. apply negb_true_iff in Hnn.
  rewrite Hobj, Hnn. cbn [negb orb].
  rewrite (validate_fields_failing data sch []) by exact Hnd.
  cbn [app]. unfold keys. rewrite length_map.
  now destruct (failing_fields data sch).
Qed.

Lemma validate_fields_agree (d1 d2 : value) (sch : Schema) (errs : obj) :
  (forall key, In key (map fst sch) -> get_prop d1 key = get_prop d2 key) ->
  validate_fields d1 sch errs = validate_fields d2 sch errs.
Proof.
  revert errs. induction sch as [|[key rule] rest IH]; intros errs H;
    [reflexivity|].
  cbn [validate_fields]. rewrite (H key (or_introl eq_refl)).
  apply IH. intros k Hk. apply H. now right.
Qed.

(** Fields the schema does not name are never inspected: two structured
    records that agree on the fields of the schema get the same result. *)
Theorem validateSchema_ignores_unknown_fields :
  forall (d1 d2 : value) (sch : Schema),
    structured d1 = true -> structured d2 = true ->
    (forall key, In key (map fst sch) -> get_prop d1 key = get_prop d2 key) ->
    validateSchema d1 sch = validateSchema d2 sch.
Proof.
  intros d1 d2 sch H1 H2 Hagree. unfold validateSchema, structured in *.
  apply andb_prop in H1 as [Ho1 Hn1], H2 as [Ho2 Hn2].
  apply negb_true_iff in Hn1, Hn2.
  rewrite Ho1, Hn1, Ho2, Hn2. cbn [negb orb].
  now rewrite (validate_fields_agree d1 d2 sch [] Hagree).
Qed.

(** The length, pattern and range constraints act only under their own
    declared type: for a value that is present, a rule without a type, or
    with a type other than 'string' and 'number', checks the type and the
    enum alone; under 'number' the length and pattern constraints are not
    looked at, and under 'string' the range constraints are not. *)
Theorem fieldErrors_constraints_need_their_type :
  forall (rule : Rule) (v : value),
    is_nullish v = false ->
    (rule_type rule = None -> fieldErrors rule v = enum_check rule v) /\
    (forall t, rule_type rule = Some t -> t <> "string" -> t <> "number" ->
               fieldErrors rule v =
               (if Boolean_string t && negb (String.eqb (typeof v) t)
                then [("Type must be '" ++ t ++ "'")%string] else [])
               ++ enum_check rule v) /\
    (forall n, rule_type rule = Some "number" -> v = VNum n ->
               fieldErrors rule v = number_checks rule n ++ enum_check rule v) /\
    (forall s, rule_type rule = Some "string" -> v = VStr s ->
               fieldErrors rule v = string_checks rule s ++ enum_check rule v).
Proof.
  intros rule v Hv. rewrite (fieldErrors_present rule v Hv).
  unfold type_mismatch, type_checks. repeat split.
  - intros ->. reflexivity.
  - intros t -> Hs Hn.
    apply String.eqb_neq in Hs, Hn. rewrite Hs, Hn.
    now destruct (Boolean_string t && negb (String.eqb (typeof v) t)).
  - intros n -> ->. reflexivity.
  - intros s -> ->. reflexivity.
Qed.

(** For a string under a rule of type 'string' whose maximal length is not
    0, the messages are, in this order, one for a length below [minLength],
    one for a length above [maxLength], one for a pattern that does not
    match, and one for a value outside the enum: every violation is
    reported and nothing else. *)
Theorem fieldErrors_string_reports_every_violation :
  forall (rule : Rule) (s : string),
    rule_type rule = Some "string" ->
    rule_maxLength rule <> Some 0%Z ->
    fieldErrors rule (VStr s) =
    (match rule_minLength rule with
     | Some n => if (js_length s <? n)%Z
                 then [("Minimum length is " ++ Z_to_string n)%string] else []
     | None => []
     end) ++
    (match rule_maxLength rule with
     | Some n => if (n <? js_length s)%Z
                 then [("Maximum length is " ++ Z_to_string n)%string] else []
     | None => []
     end) ++
    (match rule_pattern rule with
     | Some test => if test s then [] else ["Does not match pattern"]
     | None => []
     end) ++
    (match rule_enum rule with
     | Some allowed =>
         if includes allowed (VStr s) then []
         else [("Value must be one of: " ++ join_values ", " allowed)%string]
     | None => []
     end).
Proof.
  intros rule s Hty Hmax.
  rewrite (fieldErrors_present rule (VStr s) eq_refl).
  unfold type_mismatch, type_checks. rewrite Hty. cbn [typeof].
  change (Boolean_string "string" && negb (String.eqb "string" "string"))
    with false. cbv iota.
  change (String.eqb "string" "string") with true. cbv iota.
  unfold string_checks, enum_check. rewrite <- !app_assoc.
  pose proof (js_length_nonneg s) as Hlen.
  f_equal; [|f_equal; [|f_equal]].
  - destruct (rule_minLength rule) as [n|]; [|reflexivity]. cbn [truthy_Z].
    destruct (n =? 0)%Z eqn:E; cbn [negb andb]; [|reflexivity].
    apply Z.eqb_eq in E. subst n.
    destruct (Z.ltb_spec (js_length s) 0); [lia|reflexivity].
  - destruct (rule_maxLength rule) as [n|]; [|reflexivity]. cbn [truthy_Z].
    destruct (n =? 0)%Z eqn:E; cbn [negb andb]; [|reflexivity].
    apply Z.eqb_eq in E. congruence.
  - destruct (rule_pattern rule) as [test|]; [|reflexivity].
    now destruct (test s).
  - destruct (rule_enum rule) as [allowed|]; [|reflexivity].
    now destruct (includes allowed (VStr s)).
Qed.

End ValidationEdges.

(* ------------------------------------------------------------------------- *)
(** * Further properties of registration and lookup                            *)
(* ------------------------------------------------------------------------- *)

Section RoutingEdges.

Context {Num : JSNumber} {Json : JSONParser}.

Lemma split_not_nil (sep : ascii) (s : string) : split sep s <> [].
Proof.
  destruct s as [|c s]; cbn; [discriminate|].
  destruct (Ascii.eqb c sep); [discriminate|].
  destruct (split sep s); discriminate.
Qed.

Lemma split_app_sep (sep : ascii) (a b : string) :
  split sep (a ++ String sep b) = split sep a ++ split sep b.
Proof.
  induction a as [|c a IH]; cbn [String.append split].
  - now rewrite Ascii.eqb_refl.
  - destruct (Ascii.eqb c sep); [now rewrite IH|].
    rewrite IH. pose proof (split_not_nil sep a) as Hne.
    destruct (split sep a) as [|seg segs]; [congruence|reflexivity].
Qed.

Lemma segments_app (a b : string) :
  segments (a ++ String "/" b) = segments a ++ segments b.
Proof. unfold segments. now rewrite split_app_sep, filter_app. Qed.

(** Slashes at the start, at the end or repeated inside a path make no
    difference to the lookup, and the segments compared are never empty. *)
Theorem findRoute_ignores_extra_slashes :
  forall (api : MockApi) (m p : string),
    _findRoute api m ("/" ++ p) = _findRoute api m p /\
    _findRoute api m (p ++ "/") = _findRoute api m p /\
    (forall a b, _findRoute api m (a ++ "//" ++ b)
                 = _findRoute api m (a ++ "/" ++ b)) /\
    (forall seg, In seg (segments p) -> seg <> EmptyString).
Proof.
  intros api m p. unfold _findRoute.
  assert (Hlead : forall b, segments (String "/" b) = segments b).
  { intros b. exact (segments_app EmptyString b). }
  assert (Htrail : segments (p ++ String "/" EmptyString) = segments p).
  { rewrite (segments_app p EmptyString). apply app_nil_r. }
  split; [|split; [|split]].
  - cbn [String.append]. now rewrite Hlead.
  - now rewrite Htrail.
  - intros a b. cbn [String.append].
    now rewrite (segments_app a (String "/" b)), Hlead, (segments_app a b).
  - intros seg Hseg ->. unfold segments in Hseg.
    apply filter_In in Hseg as [_ H]. discriminate.
Qed.

Lemma find_route_in_app (rs rs' : list Route) (m : string)
      (segs : list string) :
  find_route_in (rs ++ rs') m segs =
  match find_route_in rs m segs with
  | Normal None => find_route_in rs' m segs
  | found => found
  end.
Proof.
  induction rs as [|r rs IH]; [reflexivity|].
  rewrite <- app_comm_cons, !find_route_in_cons.
  destruct (route_try r m segs) as [[ps|]|e]; [reflexivity|exact IH|reflexivity].
Qed.

(** Registering a route never changes what a lookup found before: a request
    that matched a route, or made the lookup throw, does the same afterwards;
    only a request that matched nothing is tried against the new route. *)
Theorem register_keeps_earlier_matches :
  forall (api : MockApi) (m path : string) (sch : option Schema)
         (h : Handler) (reqMethod urlPath : string),
    let added := mkRoute (toUpperCase m) path (segments path)
                         (param_entries (segments path) 0) sch h in
    _findRoute (_register api m path sch h) reqMethod urlPath =
    match _findRoute api reqMethod urlPath with
    | Normal None =>
        match route_try added reqMethod (segments urlPath) with
        | Normal (Some ps) => Normal (Some (added, ps))
        | Normal None => Normal None
        | Throw e => Throw e
        end
    | found => found
    end.
Proof.
  intros api m path sch h reqMethod urlPath added.
  unfold _findRoute, _register. cbn [routes]. fold added.
  rewrite find_route_in_app.
  destruct (find_route_in (routes api) reqMethod (segments urlPath))
    as [[found|]|e]; try reflexivity.
  rewrite find_route_in_cons.
  now destruct (route_try added reqMethod (segments urlPath)) as [[ps|]|e].
Qed.

Lemma match_segments_literal (segs : list string) (p : obj) :
  literal_only segs = true -> match_segments segs segs p = Normal (Some p).
Proof.
  induction segs as [|seg segs IH]; [reflexivity|].
  cbn [literal_only forallb]. intros H. apply andb_prop in H as [Hseg Hrest].
  apply negb_true_iff in Hseg. rewrite match_segments_cons, Hseg.
  rewrite String.eqb_refl. now apply IH.
Qed.

Lemma toUpperCase_idempotent (s : string) :
  toUpperCase (toUpperCase s) = toUpperCase s.
Proof.
  induction s as [|c s IH]; [reflexivity|]. cbn [toUpperCase]. rewrite IH.
  f_equal. unfold upper_ascii at 1.
  destruct ((97 <=? nat_of_ascii (upper_ascii c))%nat
            && (nat_of_ascii (upper_ascii c) <=? 122)%nat) eqn:E;
    [|reflexivity].
  exfalso. apply andb_prop in E as [E1 E2].
  apply Nat.leb_le in E1, E2. unfold upper_ascii in E1, E2.
  destruct ((97 <=? nat_of_ascii c)%nat && (nat_of_ascii c <=? 122)%nat)
    eqn:Ec.
  - apply andb_prop in Ec as [Ec1 Ec2]. apply Nat.leb_le in Ec1, Ec2.
    rewrite nat_ascii_embedding in E1 by lia. lia.
  - apply andb_false_iff in Ec as [Ec|Ec]; apply Nat.leb_gt in Ec; lia.
Qed.

(** Register, then look up: a route whose pattern has no parameter is found
    by a request for the same path, with no parameters, once no earlier
    route takes the request; the letter case of the method does not matter
    on either side. *)
Theorem register_then_findRoute :
  forall (api : MockApi) (m m' path : string) (sch : option Schema)
         (h : Handler) (body : option string),
    literal_only (segments path) = true ->
    toUpperCase m' = toUpperCase m ->
    Boolean_string m' = true ->
    _findRoute api (toUpperCase m) path = Normal None ->
    _findRoute (_register api m path sch h)
               (request_method (mkFetchOptions (Some m') body)) path =
    Normal (Some (mkRoute (toUpperCase m) path (segments path)
                          (param_entries (segments path) 0) sch h, [])).
Proof.
  intros api m m' path sch h body Hlit Hcase Hm' Hnone.
  unfold request_method. cbn [opt_method]. rewrite Hm', Hcase.
  unfold _findRoute, _register in *. cbn [routes].
  rewrite find_route_in_app, Hnone, find_route_in_cons.
  unfold route_try. cbn [method pathSegments].
  rewrite String.eqb_refl, Nat.eqb_refl. cbn [negb orb].
  now rewrite match_segments_literal.
Qed.

Lemma param_entries_spec (segs : list string) (k : nat) (name : string)
      (i : nat) :
  In (name, i) (param_entries segs k) <->
  exists seg, (k <= i)%nat /\ nth_error segs (i - k) = Some seg /\
              startsWith_colon seg = true /\ substring1 seg = name.
Proof.
  revert k. induction segs as [|seg segs IH]; intros k; cbn [param_entries].
  - split; [intros []|]. intros (seg & _ & H & _).
    now destruct (i - k)%nat.
  - assert (Hrest :
              In (name, i) (param_entries segs (S k)) <->
              exists seg', (k < i)%nat /\ nth_error segs (i - S k) = Some seg' /\
                           startsWith_colon seg' = true /\
                           substring1 seg' = name).
    { rewrite IH. split; intros (s & H1 & H2); exists s; (split; [lia|exact H2]). }
    assert (Hstep :
              (exists seg', (k <= i)%nat /\
                            nth_error (seg :: segs) (i - k) = Some seg' /\
                            startsWith_colon seg' = true /\
                            substring1 seg' = name) <->
              (i = k /\ startsWith_colon seg = true /\ substring1 seg = name) \/
              (exists seg', (k < i)%nat /\
                            nth_error segs (i - S k) = Some seg' /\
                            startsWith_colon seg' = true /\
                            substring1 seg' = name)).
    { split.
      - intros (s & Hle & Hnth & Hc & Hn).
        destruct (Nat.eq_dec i k) as [->|Hne].
        + rewrite Nat.sub_diag in Hnth. injection Hnth as <-. now left.
        + right. exists s. split; [lia|]. split; [|now split].
          replace (i - k)%nat with (S (i - S k)) in Hnth by lia. exact Hnth.
      - intros [(-> & Hc & Hn)|(s & Hlt & Hnth & Hc & Hn)].
        + exists seg. rewrite Nat.sub_diag. now repeat split.
        + exists s. split; [lia|]. split; [|now split].
          replace (i - k)%nat with (S (i - S k)) by lia. exact Hnth. }
    rewrite Hstep, <- Hrest.
    destruct (startsWith_colon seg) eqn:Hc; cbn [In].
    + split.
      * intros [[= <- <-]|H]; [left; now repeat split|now right].
      * intros [(-> & _ & <-)|H]; [now left|now right].
    + split; [now right|]. intros [(_ & H & _)|H]; [discriminate|exact H].
Qed.

(** What [_register] stores: the method in upper case, the non-empty
    segments of the pattern, and in [params] exactly the parameter segments,
    each with its name and its position among the segments; the routes
    registered before stay as they are, in front of the new one. *)
Theorem register_records_the_pattern :
  forall (api : MockApi) (m path : string) (sch : option Schema) (h : Handler),
    exists added,
      routes (_register api m path sch h) = routes api ++ [added] /\
      db (_register api m path sch h) = db api /\
      method added = toUpperCase m /\
      pathSegments added = segments path /\
      schema added = sch /\
      (forall name i,
          In (name, i) (params added) <->
          exists seg, nth_error (pathSegments added) i = Some seg /\
                      startsWith_colon seg = true /\ substring1 seg = name).
Proof.
  intros api m path sch h. eexists. split; [reflexivity|].
  cbn [db method pathSegments schema params].
  repeat split; try reflexivity.
  - intros Hin. apply param_entries_spec in Hin as (seg & _ & Hnth & Hc & Hn).
    rewrite Nat.sub_0_r in Hnth. now exists seg.
  - intros (seg & Hnth & Hc & Hn). apply param_entries_spec.
    exists seg. rewrite Nat.sub_0_r. repeat split; [lia|assumption..].
Qed.

Lemma match_segments_values (rs qs : list string) (p ps : obj) :
  match_segments rs qs p = Normal (Some ps) ->
  forall k v, In (k, v) ps ->
              In (k, v) p \/
              exists seg d, In seg rs /\ startsWith_colon seg = true /\
                            k = substring1 seg /\ v = VStr d.
Proof.
  revert qs p. induction rs as [|r rs IH]; intros qs p; cbn [match_segments].
  - intros [= <-] k v Hin. now left.
  - destruct (startsWith_colon r) eqn:Hcolon.
    + destruct (decodeURIComponent _) as [d|e]; cbn [bind]; [|discriminate].
      intros H k v Hin.
      destruct (IH _ _ H k v Hin) as [Hp|(seg & d' & Hseg & Hc & Hk & Hv)].
      * apply In_obj_set in Hp as [[-> ->]|Hp]; [|now left].
        right. exists r, d. repeat split; [now left|exact Hcolon].
      * right. exists seg, d'. repeat split; [now right|assumption..].
    + destruct qs as [|q qs]; [discriminate|].
      destruct (String.eqb r q); [|discriminate].
      intros H k v Hin.
      destruct (IH _ _ H k v Hin) as [Hp|(seg & d' & Hseg & Hc & Hk & Hv)];
        [now left|].
      right. exists seg, d'. repeat split; [now right|assumption..].
Qed.

(** A route the lookup returns is a registered route with the method and the
    segment count of the request, agreeing with the request segment by
    segment; the parameters it comes with are strings, each under the name
    of a parameter segment of the route. *)
Theorem findRoute_returns_a_registered_match :
  forall (api : MockApi) (reqMethod urlPath : string) (route : Route)
         (ps : obj),
    _findRoute api reqMethod urlPath = Normal (Some (route, ps)) ->
    In route (routes api) /\
    method route = reqMethod /\
    List.length (pathSegments route) = List.length (segments urlPath) /\
    Forall2 segment_agrees (pathSegments route) (segments urlPath) /\
    (forall k v, In (k, v) ps ->
                 exists seg d, In seg (pathSegments route) /\
                               startsWith_colon seg = true /\
                               k = substring1 seg /\ v = VStr d).
Proof.
  intros api reqMethod urlPath route ps H. unfold _findRoute in H.
  apply find_route_in_sound in H as (pre & post & Hrs & _ & Htry).
  destruct (route_try_sound _ _ _ Htry) as (Hm & Hlen & Hagree).
  split; [rewrite Hrs; apply in_or_app; right; now left|].
  repeat split; try assumption.
  intros k v Hin. unfold route_try in Htry.
  destruct (negb (String.eqb (method route) reqMethod)
            || negb (List.length (pathSegments route)
                     =? List.length (segments urlPath))%nat);
    [discriminate|].
  destruct (match_segments_values _ _ _ Htry k v Hin) as [[]|H]. exact H.
Qed.

Lemma match_segments_throws (rs qs : list string) (p : obj) (e : exn) :
  List.length rs = List.length qs ->
  match_segments rs qs p = Throw e ->
  exists rseg qseg, In rseg rs /\ startsWith_colon rseg = true /\
                    In qseg qs /\ decodeURIComponent qseg = Throw e.
Proof.
  revert qs p. induction rs as [|r rs IH]; intros [|q qs] p Hlen;
    try discriminate.
  injection Hlen as Hlen. rewrite match_segments_cons.
  destruct (startsWith_colon r) eqn:Hcolon.
  - destruct (decodeURIComponent q) as [d|e'] eqn:Hd.
    + intros H. destruct (IH _ _ Hlen H) as (rseg & qseg & Hr & Hc & Hq & Ht).
      exists rseg, qseg. repeat split; [now right|exact Hc|now right|exact Ht].
    + intros [= ->]. exists r, q. repeat split; [now left|exact Hcolon|now left|
                                                  exact Hd].
  - destruct (String.eqb r q); [|discriminate].
    intros H. destruct (IH _ _ Hlen H) as (rseg & qseg & Hr & Hc & Hq & Ht).
    exists rseg, qseg. repeat split; [now right|exact Hc|now right|exact Ht].
Qed.

Lemma find_route_in_throws (rs : list Route) (m : string) (segs : list string)
      (e : exn) :
  find_route_in rs m segs = Throw e ->
  exists route rseg qseg,
    In route rs /\ method route = m /\
    List.length (pathSegments route) = List.length segs /\
    In rseg (pathSegments route) /\ startsWith_colon rseg = true /\
    In qseg segs /\ decodeURIComponent qseg = Throw e.
Proof.
  induction rs as [|r rs IH]; [discriminate|].
  rewrite find_route_in_cons. unfold route_try.
  destruct (String.eqb_spec (method r) m) as [Hm|Hm]; cbn [negb orb].
  - destruct (Nat.eqb_spec (List.length (pathSegments r)) (List.length segs))
      as [Hlen|Hlen]; cbn [negb].
    + destruct (match_segments (pathSegments r) segs []) as [[ps|]|e'] eqn:Hms.
      * discriminate.
      * intros H. destruct (IH H) as (route & rseg & qseg & Hin & Hrest).
        exists route, rseg, qseg. split; [now right|exact Hrest].
      * intros [= ->].
        destruct (match_segments_throws _ _ _ Hlen Hms)
          as (rseg & qseg & Hr & Hc & Hq & Ht).
        exists r, rseg, qseg. repeat split; try assumption. now left.
    + intros H. destruct (IH H) as (route & rseg & qseg & Hin & Hrest).
      exists route, rseg, qseg. split; [now right|exact Hrest].
  - intros H. destruct (IH H) as (route & rseg & qseg & Hin & Hrest).
    exists route, rseg, qseg. split; [now right|exact Hrest].
Qed.

Lemma decodeURIComponent_throws (s : string) (e : exn) :
  decodeURIComponent s = Throw e -> e = URIError "URI malformed".
Proof.
  unfold decodeURIComponent. destruct (decode_from s 0 128 191);
    [discriminate|]. now intros [= <-].
Qed.

(** The lookup throws only a URIError, and only when a registered route with
    the method and the segment count of the request has a parameter segment
    and a segment of the request does not decode; routes without parameters
    never make it throw. *)
Theorem findRoute_throws_only_on_parameters :
  forall (api : MockApi) (reqMethod urlPath : string),
    (forall e,
        _findRoute api reqMethod urlPath = Throw e ->
        e = URIError "URI malformed" /\
        exists route rseg qseg,
          In route (routes api) /\ method route = reqMethod /\
          List.length (pathSegments route) = List.length (segments urlPath) /\
          In rseg (pathSegments route) /\ startsWith_colon rseg = true /\
          In qseg (segments urlPath) /\ decodeURIComponent qseg = Throw e) /\
    ((forall route, In route (routes api) ->
                    literal_only (pathSegments route) = true) ->
     exists found, _findRoute api reqMethod urlPath = Normal found).
Proof.
  intros api reqMethod urlPath.
  assert (H1 : forall e,
             _findRoute api reqMethod urlPath = Throw e ->
             e = URIError "URI malformed" /\
             exists route rseg qseg,
               In route (routes api) /\ method route = reqMethod /\
               List.length (pathSegments route)
               = List.length (segments urlPath) /\
               In rseg (pathSegments route) /\ startsWith_colon rseg = true /\
               In qseg (segments urlPath) /\
               decodeURIComponent qseg = Throw e).
  { intros e H. unfold _findRoute in H.
    destruct (find_route_in_throws _ _ _ H)
      as (route & rseg & qseg & Hin & Hm & Hlen & Hr & Hc & Hq & Ht).
    split; [exact (decodeURIComponent_throws _ Ht)|].
    exists route, rseg, qseg. now repeat split. }
  split; [exact H1|].
  intros Hlit.
  destruct (_findRoute api reqMethod urlPath) as [found|e] eqn:E;
    [now exists found|].
  destruct (H1 e eq_refl) as (_ & route & rseg & _ & Hin & _ & _ & Hr & Hc & _).
  specialize (Hlit route Hin). unfold literal_only in Hlit.
  rewrite forallb_forall in Hlit. specialize (Hlit rseg Hr).
  rewrite Hc in Hlit. discriminate.
Qed.

End RoutingEdges.

(* ------------------------------------------------------------------------- *)
(** * Further properties of [fetch]                                            *)
(* ------------------------------------------------------------------------- *)

Section DispatchEdges.

Context {Num : JSNumber} {Json : JSONParser}.

Lemma reply_500 :
  reply 500 (VObj [("message", VStr "Internal Server Error")])
  = Normal internal_error.
Proof. reflexivity. Qed.

(** A handler call in the log pins down the whole run. *)
Lemma fetch_calls_inv (api : MockApi) (pathname : string)
      (searchParams : list (string * string)) (options : FetchOptions)
      (route : Route) (req : Request) (more : list (Route * Request)) :
  fetch_calls (fetch api pathname searchParams options) = (route, req) :: more ->
  exists store ps,
    more = [] /\
    db api = Some store /\
    _findRoute api (request_method options) pathname
    = Normal (Some (route, ps)) /\
    req = mkRequest ps (fromEntries searchParams [])
                    (parse_body (opt_body options)) /\
    fetch_result (fetch api pathname searchParams options)
    = after_handler (handler route req new_ResponseHelper store) /\
    fetch_store (fetch api pathname searchParams options)
    = Some (run_store (handler route req new_ResponseHelper store)).
Proof.
  unfold fetch. destruct (db api) as [store|]; [|discriminate].
  cbv zeta.
  destruct (_findRoute api (request_method options) pathname)
    as [[[route' ps]|]|e]; try discriminate.
  destruct (match schema route' with
            | Some sch =>
                if validated_method (request_method options)
                then Some (validateSchema (parse_body (opt_body options)) sch)
                else None
            | None => None
            end) as [[[|] errs]|]; try discriminate.
  all: cbn [fetch_calls fetch_result fetch_store].
  all: intros [= <- <- <-]; exists store, ps.
  all: repeat split; unfold after_handler; rewrite reply_500; reflexivity.
Qed.

Lemma fetch_calls_cases (api : MockApi) (pathname : string)
      (searchParams : list (string * string)) (options : FetchOptions) :
  (fetch_calls (fetch api pathname searchParams options) = [] /\
   fetch_store (fetch api pathname searchParams options) = db api) \/
  exists route req,
    fetch_calls (fetch api pathname searchParams options) = [(route, req)].
Proof.
  unfold fetch. destruct (db api) as [store|]; [|now left].
  cbv zeta.
  destruct (_findRoute api (request_method options) pathname)
    as [[[route' ps]|]|e]; try (now left).
  destruct (match schema route' with
            | Some sch =>
                if validated_method (request_method options)
                then Some (validateSchema (parse_body (opt_body options)) sch)
                else None
            | None => None
            end) as [[[|] errs]|]; try (now left).
  all: right; eexists; eexists; reflexivity.
Qed.

(** One call of [fetch] calls at most one handler, a handler of a registered
    route, and when it calls none the store is exactly as it was: [fetch]
    itself never writes to the store. *)
Theorem fetch_calls_at_most_one_handler :
  forall (api : MockApi) (pathname : string)
         (searchParams : list (string * string)) (options : FetchOptions),
    let run := fetch api pathname searchParams options in
    (List.length (fetch_calls run) <= 1)%nat /\
    (fetch_calls run = [] -> fetch_store run = db api) /\
    (forall route req, In (route, req) (fetch_calls run) ->
                       In route (routes api)).
Proof.
  intros api pathname searchParams options run. subst run.
  destruct (fetch_calls_cases api pathname searchParams options)
    as [[Hnil Hstore]|(route & req & Hcall)].
  - rewrite Hnil. repeat split; [cbn; lia|now intros _|intros ? ? []].
  - rewrite Hcall. repeat split; [cbn; lia|discriminate|].
    intros route' req' [[= <- <-]|[]].
    apply fetch_calls_inv in Hcall as (store & ps & _ & _ & Hfind & _).
    unfold _findRoute in Hfind.
    apply find_route_in_sound in Hfind as (pre & post & -> & _).
    apply in_or_app. right. now left.
Qed.

Lemma find_route_in_none (rs : list Route) (m : string) (segs : list string) :
  (forall route, In route rs ->
                 method route <> m \/
                 List.length (pathSegments route) <> List.length segs) ->
  find_route_in rs m segs = Normal None.
Proof.
  induction rs as [|r rs IH]; intros H; [reflexivity|].
  rewrite find_route_in_cons. unfold route_try.
  assert (Hskip : negb (String.eqb (method r) m)
                  || negb (List.length (pathSegments r) =? List.length segs)%nat
                  = true).
  { destruct (H r (or_introl eq_refl)) as [Hm|Hl].
    - apply String.eqb_neq in Hm. now rewrite Hm.
    - apply Nat.eqb_neq in Hl. rewrite Hl. apply orb_true_r. }
  rewrite Hskip. apply IH. intros route Hin. apply H. now right.
Qed.

(** A request that no route can take, because every route differs from it in
    method or in the number of segments, is answered 404 with a message that
    names the method and the path; no handler runs, the store stays as it
    was, and nothing is thrown, whatever the path contains. *)
Theorem fetch_unroutable_request_404 :
  forall (api : MockApi) (store : Store) (pathname : string)
         (searchParams : list (string * string)) (options : FetchOptions),
    db api = Some store ->
    (forall route, In route (routes api) ->
                   method route <> request_method options \/
                   List.length (pathSegments route)
                   <> List.length (segments pathname)) ->
    fetch api pathname searchParams options =
    mkFetchRun
      (Normal (mkResponse 404 "Not Found" "application/json"
                 (Some (JsonText
                    (VObj [("message",
                            VStr ("Route " ++ request_method options ++ " "
                                  ++ pathname ++ " not found."))])))))
      (Some store) [].
Proof.
  intros api store pathname searchParams options Hdb Hnone.
  unfold fetch. rewrite Hdb. cbv zeta. unfold _findRoute.
  rewrite (find_route_in_none _ _ Hnone).
  now rewrite reply_ok by (cbn; first [lia | reflexivity]).
Qed.

(** Validation is tied to the method: under any method other than POST, PUT
    and PATCH the schema of the matched route is not consulted, and the
    handler is called, once, with the parameters of the match, the query
    entries and the parsed body. *)
Theorem fetch_validates_only_post_put_patch :
  forall (api : MockApi) (store : Store) (pathname : string)
         (searchParams : list (string * string)) (options : FetchOptions)
         (route : Route) (ps : obj),
    db api = Some store ->
    _findRoute api (request_method options) pathname
    = Normal (Some (route, ps)) ->
    ~ In (request_method options) ["POST"; "PUT"; "PATCH"] ->
    let req := mkRequest ps (fromEntries searchParams [])
                         (parse_body (opt_body options)) in
    let run := fetch api pathname searchParams options in
    fetch_calls run = [(route, req)] /\
    fetch_result run = after_handler (handler route req new_ResponseHelper store)
    /\ fetch_store run
       = Some (run_store (handler route req new_ResponseHelper store)).
Proof.
  intros api store pathname searchParams options route ps Hdb Hfind Hmeth
         req run.
  assert (Hm : validated_method (request_method options) = false).
  { destruct (validated_method (request_method options)) eqn:E;
      [|reflexivity].
    apply validated_method_iff in E. contradiction. }
  subst run. unfold fetch. rewrite Hdb. cbv zeta. rewrite Hfind, Hm.
  assert (Hval : match schema route with
                 | Some _ => None
                 | None => None
                 end = @None ValidationResult) by (now destruct (schema route)).
  rewrite Hval. cbn [fetch_calls fetch_result fetch_store]. fold req.
  unfold after_handler. rewrite reply_500. repeat split.
Qed.

(** On a route with a schema, under POST, PUT or PATCH, every body that is
    not an object or an array is refused with status 400 and the [_global]
    error: a missing or empty body, text that is not JSON (it is kept as a
    string), and JSON that is a string, a number, a boolean or null.  The
    handler is not called. *)
Theorem fetch_rejects_unstructured_body :
  forall (api : MockApi) (store : Store) (pathname : string)
         (searchParams : list (string * string)) (options : FetchOptions)
         (route : Route) (ps : obj) (sch : Schema),
    db api = Some store ->
    _findRoute api (request_method options) pathname
    = Normal (Some (route, ps)) ->
    schema route = Some sch ->
    In (request_method options) ["POST"; "PUT"; "PATCH"] ->
    (opt_body options = None \/ opt_body options = Some EmptyString \/
     (exists text, opt_body options = Some text /\ JSON_parse text = None) \/
     structured (parse_body (opt_body options)) = false) ->
    fetch api pathname searchParams options =
    mkFetchRun
      (Normal (mkResponse 400 "Bad Request" "application/json"
                 (Some (JsonText
                    (VObj [("message", VStr "Validation Error");
                           ("errors",
                            VObj [("_global",
                                   VStr "Request body was expected to be an object.")])])))))
      (Some store) [].
Proof.
  intros api store pathname searchParams options route ps sch
         Hdb Hfind Hsch Hmeth Hbody.
  assert (Hs : structured (parse_body (opt_body options)) = false).
  { destruct Hbody as [-> | [-> | [(text & -> & Hparse) | H]]];
      try reflexivity; [|exact H].
    unfold parse_body. rewrite Hparse. now destruct (Boolean_string text). }
  apply validated_method_iff in Hmeth.
  unfold fetch. rewrite Hdb. cbv zeta. rewrite Hfind, Hsch, Hmeth.
  unfold validateSchema. unfold structured in Hs.
  assert (Hg : negb (String.eqb (typeof (parse_body (opt_body options)))
                                "object")
               || is_nullish (parse_body (opt_body options)) = true).
  { apply andb_false_iff in Hs as [->|Hn]; [reflexivity|].
    apply negb_false_iff in Hn. rewrite Hn. apply orb_true_r. }
  rewrite Hg.
  now rewrite reply_ok by (cbn; first [lia | reflexivity]).
Qed.

Lemma build_fails_iff (res : ResponseHelper) :
  (exists e, build res = Throw e) <->
  (to_unsigned_short (_status res) < 200)%Z \/
  (599 < to_unsigned_short (_status res))%Z \/
  (_body res <> None /\
   In (to_unsigned_short (_status res)) [204; 205; 304]%Z).
Proof.
  unfold build, null_body_status. cbv zeta.
  set (st := to_unsigned_short (_status res)).
  destruct (Z.leb_spec 200 st) as [Hlo|Hlo],
           (Z.leb_spec st 599) as [Hhi|Hhi];
    cbn [andb negb].
  2-4: split; [intros _; lia|intros _; eexists; reflexivity].
  destruct (_body res) as [b|].
  - destruct (Z.eqb_spec st 204) as [E1|E1];
      [|destruct (Z.eqb_spec st 205) as [E2|E2];
        [|destruct (Z.eqb_spec st 304) as [E3|E3]]];
      cbn [orb].
    1-3: split; [intros _; right; right; split; [discriminate|cbn; lia]
                |intros _; eexists; reflexivity].
    split; [intros [e Hx]; discriminate|].
    intros [Hx|[Hx|[_ Hx]]]; try lia. cbn in Hx. lia.
  - split; [intros [e Hx]; discriminate|].
    intros [Hx|[Hx|[Hx _]]]; try lia. congruence.
Qed.

(** A failing handler never shows in the response: when the handler throws,
    or leaves a response that cannot be built (a status that, read as an
    unsigned short, is outside 200..599, or a body together with status
    204, 205 or 304), [fetch] resolves to the same fixed status-500
    response, whatever was thrown; the store is as the handler left it. *)
Theorem fetch_hides_handler_failure :
  forall (api : MockApi) (pathname : string)
         (searchParams : list (string * string)) (options : FetchOptions)
         (route : Route) (req : Request) (store : Store),
    db api = Some store ->
    fetch_calls (fetch api pathname searchParams options) = [(route, req)] ->
    let ran := handler route req new_ResponseHelper store in
    let st := to_unsigned_short (_status (run_res ran)) in
    ((exists e, run_outcome ran = Throw e) \/
     (st < 200)%Z \/ (599 < st)%Z \/
     (_body (run_res ran) <> None /\ In st [204; 205; 304]%Z)) ->
    fetch_result (fetch api pathname searchParams options)
    = Normal internal_error /\
    fetch_store (fetch api pathname searchParams options)
    = Some (run_store ran).
Proof.
  intros api pathname searchParams options route req store Hdb Hcall ran st
         Hbad.
  apply fetch_calls_inv in Hcall
    as (store' & ps & _ & Hdb' & _ & _ & Hres & Hstore).
  rewrite Hdb in Hdb'. injection Hdb' as <-. fold ran in Hres, Hstore.
  split; [|exact Hstore]. rewrite Hres. unfold after_handler.
  destruct Hbad as [[e He]|Hbuild].
  - now rewrite He.
  - apply build_fails_iff in Hbuild as [e He]. rewrite He.
    now destruct (run_outcome ran).
Qed.


Lemma obj_get_fromEntries (entries : list (string * string)) (acc : obj)
      (k : string) :
  obj_get (fromEntries entries acc) k =
  match last_entry entries k with
  | Some v => VStr v
  | None => obj_get acc k
  end.
Proof.
  revert acc. induction entries as [|[k' v] rest IH]; intros acc;
    [reflexivity|].
  cbn [fromEntries last_entry]. rewrite IH.
  destruct (last_entry rest k); [reflexivity|].
  destruct (String.eqb_spec k k') as [->|Hne].
  - apply obj_get_set_same.
  - now apply obj_get_set_other.
Qed.

(** The query the handler sees: under each name the value of the last entry
    of that name in the query string, as a string, and nothing under a name
    the query string does not have. *)
Theorem fetch_query_last_entry_wins :
  forall (api : MockApi) (pathname : string)
         (searchParams : list (string * string)) (options : FetchOptions)
         (route : Route) (req : Request),
    fetch_calls (fetch api pathname searchParams options) = [(route, req)] ->
    forall k,
      obj_get (req_query req) k =
      match last_entry searchParams k with
      | Some v => VStr v
      | None => VUndef
      end.
Proof.
  intros api pathname searchParams options route req Hcall k.
  apply fetch_calls_inv in Hcall as (store & ps & _ & _ & _ & -> & _).
  cbn [req_query]. now rewrite obj_get_fromEntries.
Qed.

End DispatchEdges.

(* ------------------------------------------------------------------------- *)
(** * Properties of [exportData]                                               *)
(* ------------------------------------------------------------------------- *)

Section ExportEdges.

Context {Num : JSNumber}.

Lemma find_default (records : list obj) : find records default_query = records.
Proof.
  rewrite find_unfold. cbn. apply filtered_nil.
Qed.

Lemma export_results_ok (database : Store) (stores : list string) :
  (forall name, In name stores -> store_records database name <> None) ->
  export_results database stores =
  Normal (map (fun name => (name, match store_records database name with
                                  | Some records => records
                                  | None => []
                                  end)) stores).
Proof.
  induction stores as [|name rest IH]; intros H; [reflexivity|].
  cbn [export_results map]. unfold DbWrapper_find.
  pose proof (H name (or_introl eq_refl)) as Hname.
  destruct (store_records database name) as [records|]; [|congruence].
  cbn [bind]. rewrite find_default, IH; [reflexivity|].
  intros n Hn. apply H. now right.
Qed.

Lemma export_reduce_get (results : list (string * list obj)) (acc : obj)
      (name : string) :
  (forall r1 r2, In (name, r1) results -> In (name, r2) results -> r1 = r2) ->
  obj_get (export_reduce results acc) name =
  match List.find (fun nr => String.eqb (fst nr) name) results with
  | Some (_, records) => VArr (map VObj records)
  | None => obj_get acc name
  end.
Proof.
  revert acc. induction results as [|[n records] rest IH]; intros acc Hfun;
    [reflexivity|].
  cbn [export_reduce List.find fst].
  assert (Hrest : forall r1 r2, In (name, r1) rest -> In (name, r2) rest ->
                                r1 = r2)
    by (intros r1 r2 H1 H2; apply Hfun; now right).
  rewrite (IH _ Hrest).
  destruct (String.eqb_spec n name) as [->|Hne].
  - destruct (List.find (fun nr => String.eqb (fst nr) name) rest)
      as [[n' records']|] eqn:E.
    + apply find_some in E as [Hin Heq]. cbn in Heq.
      apply String.eqb_eq in Heq. subst n'.
      now rewrite (Hfun records records' (or_introl eq_refl)
                        (or_intror Hin)).
    + apply obj_get_set_same.
  - destruct (List.find (fun nr => String.eqb (fst nr) name) rest)
      as [[n' records']|]; [reflexivity|].
    apply obj_get_set_other. congruence.
Qed.

(** When the database has every store of [options.stores], [exportData]
    gives an object that holds, under the name of each of these stores, all
    the records of the store in store order, and nothing under any other
    name; when one of the stores is missing, it rejects. *)
Theorem exportData_holds_every_store :
  forall (database : Store) (stores : list string),
    ((forall name, In name stores -> store_records database name <> None) ->
     exists exported,
       exportData stores database = Normal exported /\
       (forall name records,
           In name stores -> store_records database name = Some records ->
           obj_get exported name = VArr (map VObj records)) /\
       (forall name, ~ In name stores -> obj_get exported name = VUndef)) /\
    (forall name, In name stores -> store_records database name = None ->
                  exists e, exportData stores database = Throw e).
Proof.
  intros database stores. split.
  - intros Hall. unfold exportData. rewrite (export_results_ok _ _ Hall).
    cbn [bind]. eexists. split; [reflexivity|].
    set (results := map _ stores).
    assert (Hfun : forall name r1 r2,
               In (name, r1) results -> In (name, r2) results -> r1 = r2).
    { intros name r1 r2 H1 H2. subst results.
      apply in_map_iff in H1 as (n1 & [= <- <-] & _).
      apply in_map_iff in H2 as (n2 & [= <- <-] & _). reflexivity. }
    split.
    + intros name records Hin Hrec.
      rewrite (export_reduce_get results [] name (Hfun name)).
      destruct (List.find (fun nr => String.eqb (fst nr) name) results)
        as [[n recs]|] eqn:E.
      * apply find_some in E as [Hin' Heq]. cbn in Heq.
        apply String.eqb_eq in Heq. subst n results.
        apply in_map_iff in Hin' as (n & [= <- <-] & _).
        now rewrite Hrec.
      * exfalso. subst results.
        assert (Hmem : In (name, records)
                          (map (fun n => (n, match store_records database n with
                                             | Some recs => recs
                                             | None => []
                                             end)) stores)).
        { apply in_map_iff. exists name. now rewrite Hrec. }
        pose proof (find_none _ _ E (name, records) Hmem) as Hf.
        cbn in Hf. rewrite String.eqb_refl in Hf. discriminate.
    + intros name Hnot.
      rewrite (export_reduce_get results [] name (Hfun name)).
      destruct (List.find (fun nr => String.eqb (fst nr) name) results)
        as [[n recs]|] eqn:E; [|reflexivity].
      apply find_some in E as [Hin' Heq]. cbn in Heq.
      apply String.eqb_eq in Heq. subst n results.
      apply in_map_iff in Hin' as (n & [= <- _] & Hn). contradiction.
  - intros name Hin Hmissing. unfold exportData.
    assert (H : exists e, export_results database stores = Throw e).
    { induction stores as [|n rest IH]; [destruct Hin|].
      cbn [export_results]. unfold DbWrapper_find.
      destruct (store_records database n) as [records|] eqn:E;
        [|eexists; reflexivity].
      cbn [bind]. destruct Hin as [->|Hin]; [congruence|].
      destruct (IH Hin) as [e ->]. eexists. reflexivity. }
    destruct H as [e ->]. eexists. reflexivity.
Qed.

End ExportEdges.

(* ------------------------------------------------------------------------- *)
(** * [fetch] on paths without escapes                                         *)
(* ------------------------------------------------------------------------- *)

Section DispatchTotal.

Context {Num : JSNumber} {Json : JSONParser}.

Lemma after_handler_normal (run : HandlerRun) :
  exists r, after_handler run = Normal r /\ well_formed r.
Proof.
  assert (Hie : well_formed internal_error).
  { split; [cbn; lia|intros _; reflexivity]. }
  unfold after_handler. destruct (run_outcome run) as [u|e].
  - destruct (build (run_res run)) as [r|e] eqn:Hb.
    + exists r. split; [reflexivity|exact (build_well_formed _ Hb)].
    + now exists internal_error.
  - now exists internal_error.
Qed.

Lemma fetch_result_normal (api : MockApi) (store : Store) (pathname : string)
      (searchParams : list (string * string)) (options : FetchOptions)
      (found : option (Route * obj)) :
  db api = Some store ->
  _findRoute api (request_method options) pathname = Normal found ->
  exists r, fetch_result (fetch api pathname searchParams options) = Normal r
            /\ well_formed r.
Proof.
  intros Hdb Hfind.
  destruct (fetch_calls_cases api pathname searchParams options)
    as [[Hnil _]|(route & req & Hcall)].
  - revert Hnil. unfold fetch. rewrite Hdb. cbv zeta. rewrite Hfind.
    destruct found as [[route ps]|].
    + destruct (match schema route with
                | Some sch =>
                    if validated_method (request_method options)
                    then Some (validateSchema (parse_body (opt_body options))
                                              sch)
                    else None
                | None => None
                end) as [[[|] errs]|]; cbn [fetch_calls fetch_result];
        try discriminate.
      intros _. rewrite reply_ok by (cbn; first [lia | reflexivity]).
      eexists. split; [reflexivity|].
      split; [cbn; lia|intros _; reflexivity].
    + intros _. cbn [fetch_result].
      rewrite reply_ok by (cbn; first [lia | reflexivity]).
      eexists. split; [reflexivity|].
      split; [cbn; lia|intros _; reflexivity].
  - apply fetch_calls_inv in Hcall as (st & ps & _ & _ & _ & _ & -> & _).
    apply after_handler_normal.
Qed.

(** Once initialised, [fetch] resolves to a well-formed response for every
    request whose path has no ["%"], whatever the method, the query, the
    body, the routes and their handlers: nothing is thrown. *)
Theorem fetch_resolves_without_escape :
  forall (api : MockApi) (store : Store) (pathname : string)
         (searchParams : list (string * string)) (options : FetchOptions),
    db api = Some store ->
    no_percent pathname = true ->
    exists r, fetch_result (fetch api pathname searchParams options) = Normal r
              /\ well_formed r.
Proof.
  intros api store pathname searchParams options Hdb Hpath.
  destruct (findRoute_returns_without_escape api (request_method options)
                                             pathname Hpath) as [found Hfind].
  exact (fetch_result_normal api pathname searchParams options Hdb Hfind).
Qed.

End DispatchTotal.

(* ------------------------------------------------------------------------- *)
(** * 12. The code on concrete requests                                        *)
(* ------------------------------------------------------------------------- *)

Import IntHost.
Import Example.

(** C1, counterexample: before [init()] a request makes [fetch] throw, and
    after it a request whose path has a malformed escape under a parameter
    segment makes the route lookup, hence [fetch], throw a URIError. *)
Lemma fetch_can_throw :
  (fetch_result (fetch api_before_init "/posts" [] GET) =
   Throw (Error "MockApi is not initialized. Call .init() before use.") /\
   forall r, fetch_result (fetch api_before_init "/posts" [] GET) <> Normal r)
  /\
  (fetch_result (fetch api "/users/%" [] GET) = Throw (URIError "URI malformed")
   /\ forall r, fetch_result (fetch api "/users/%" [] GET) <> Normal r).
Proof.
  split; split; try reflexivity; intros r; vm_compute; discriminate.
Qed.

(** On the example: a request to a path no route has is answered 404. *)
Lemma fetch_responds_once_initialised_witness :
  exists r : Response,
    fetch_result (fetch api "/comments" [] GET) = Normal r /\
    well_formed r /\ resp_status r = 404%Z.
Proof.
  destruct (proj2 fetch_responds_once_initialised
                  api seedData "/comments" [] GET None eq_refl eq_refl)
    as (r & Hr & Hwf & H404 & _ & _).
  exists r. split; [exact Hr|]. split; [exact Hwf|]. exact (H404 eq_refl).
Defined.

(** On the example: the three routes before [/users/:userId] do not match
    [GET /users/user-1], so that route is returned with its parameter. *)
Lemma findRoute_first_registered_wins_witness :
  find_route_in (firstn 3 (routes api) ++ show_user_route :: [])
                "GET" ["users"; "user-1"] =
  Normal (Some (show_user_route, [("userId", VStr "user-1")])).
Proof.
  apply (proj2 findRoute_first_registered_wins).
  - intros r [<-|[<-|[<-|[]]]]; reflexivity.
  - reflexivity.
Defined.

(** Six posts, five of them drafts: the drafts sorted by title are [a],
    [b], [c], [d], [e]; page 2 of size 2 holds [c] and [d], taken from the
    filtered and sorted sequence; page 10 is empty. *)
Lemma find_paginates_after_filter_and_sort_witness :
  find Sample.six_posts (Sample.drafts_by_title 2 2) =
  [Sample.titled "p3" "draft" "c"; Sample.titled "p5" "draft" "d"] /\
  find Sample.six_posts (Sample.drafts_by_title 10 2) = [] /\
  StronglySorted (fun a b => key_lt "title" b a = false)
    (sort_step [("title", "asc")]
               (filtered Sample.six_posts [("status", VStr "draft")])).
Proof.
  assert (Hswo : strict_weak_on
                   (key_lt "title")
                   (filtered Sample.six_posts [("status", VStr "draft")])).
  { apply string_keys_strict_weak.
    intros a [<-|[<-|[<-|[<-|[<-|[]]]]]]; eexists; reflexivity. }
  split; [|split].
  - destruct (@find_paginates_after_filter_and_sort
                _ Sample.six_posts (Sample.drafts_by_title 2 2))
      as (_ & Hpage & _).
    destruct (Hpage 2%Z 2%Z eq_refl eq_refl ltac:(lia) ltac:(lia))
      as (H & _ & _).
    exact (eq_trans H eq_refl).
  - destruct (@find_paginates_after_filter_and_sort
                _ Sample.six_posts (Sample.drafts_by_title 10 2))
      as (_ & Hpage & _).
    destruct (Hpage 10%Z 2%Z eq_refl eq_refl ltac:(lia) ltac:(lia))
      as (_ & _ & H).
    apply H.
    rewrite <- (Permutation_length
                  (proj1 (proj1 (@find_paginates_after_filter_and_sort
                                   _ Sample.six_posts
                                   (Sample.drafts_by_title 10 2))))).
    cbn. lia.
  - destruct (@find_paginates_after_filter_and_sort
                _ Sample.six_posts (Sample.drafts_by_title 2 2))
      as ((_ & _ & Hsorted) & _).
    destruct (Hsorted "title" "asc" [] eq_refl eq_refl Hswo)
      as (Hasc & _ & _).
    exact (Hasc eq_refl).
Defined.

(** C4, counterexample: the filter [{deletedAt: null}] keeps a record that
    has no [deletedAt] property, although [null] is not [undefined]. *)
Lemma find_null_filter_keeps_record_lacking_key :
  let flt := [("deletedAt", VNull)] in
  let item := post_of "p1" "published" in
  In "deletedAt" (keys flt) /\
  lacks item "deletedAt" /\
  obj_get flt "deletedAt" <> VUndef /\
  In item (find four_posts (mkQuery flt [] no_paginate)).
Proof.
  cbv zeta. split; [now left|]. split; [|split].
  - intros [H|[H|[]]]; discriminate.
  - discriminate.
  - left. reflexivity.
Qed.

(** A record without [status] is left out by the filter [{status: "draft"}]. *)
Lemma find_filters_by_loose_equality_witness :
  ~ In [("id", VStr "r0")]
       (find five (mkQuery [("status", VStr "draft")] [] no_paginate)).
Proof.
  apply (proj2 (find_filters_by_loose_equality
                  five [("status", VStr "draft")])) with (key := "status").
  - now left.
  - intros [H|[]]; discriminate.
  - discriminate.
  - discriminate.
Defined.

(** C5, failing input: under [{code: {type: 'string', maxLength: 0}}] the
    record [{code: "abc"}] passes, although its three characters exceed the
    maximal length; the same record fails under [maxLength: 1]. *)
Theorem validateSchema_ignores_maxLength_zero :
  validateSchema (VObj [("code", VStr "abc")]) empty_code =
  mkValidationResult true VNull /\
  validateSchema (VObj [("code", VStr "abc")]) short_code =
  mkValidationResult false
    (VObj [("code", VArr [VStr "Maximum length is 1"])]).
Proof. split; reflexivity. Qed.

(** On the example: [POST /posts] with a title of two characters is answered
    400 with the errors of the three failing fields, and no handler runs. *)
Lemma fetch_validation_failure_400_witness :
  let run := fetch api "/posts" [] (POST short_title) in
  fetch_result run =
  Normal (mkResponse 400 "Bad Request" "application/json"
            (Some (JsonText
               (VObj [("message", VStr "Validation Error");
                      ("errors",
                       VObj [("title", VArr [VStr "Minimum length is 5"]);
                             ("content", VArr [VStr "Field is required"]);
                             ("userId", VArr [VStr "Field is required"])])]))))
  /\ fetch_calls run = []
  /\ fetch_store run = Some seedData.
Proof.
  exact (fetch_validation_failure_400
           api "/posts" [] (POST short_title)
           (ps := []) (sch := PostSchema)
           eq_refl eq_refl eq_refl (or_introl eq_refl) eq_refl).
Defined.

(** Four posts sorted by [status], ascending: the result is in order, and
    the published posts keep their order [p1], [p3]. *)
Lemma find_sorts_stably_witness :
  let out := find four_posts (mkQuery [] [("status", "ASC")] no_paginate) in
  StronglySorted (fun a b => key_lt "status" b a = false) out /\
  List.filter (fun y => negb (key_lt "status" (post_of "p1" "published") y)
                        && negb (key_lt "status" y (post_of "p1" "published")))
              out =
  [post_of "p1" "published"; post_of "p3" "published"].
Proof.
  assert (Hswo : strict_weak_on (key_lt "status") (filtered four_posts [])).
  { apply string_keys_strict_weak.
    intros a [<-|[<-|[<-|[<-|[]]]]]; eexists; reflexivity. }
  destruct (find_sorts_stably four_posts [] "status" "ASC" eq_refl)
    as (_ & _ & _ & _ & _ & H).
  destruct (H Hswo) as (Hasc & _ & Hstable).
  split; [exact (Hasc eq_refl)|].
  rewrite (Hstable (post_of "p1" "published") (or_introl eq_refl)).
  reflexivity.
Defined.

(** Strings are ordered by code units, not by code points: U+1F600 starts
    with the surrogate D83D, which is below FF5E, so it sorts first. *)
Example find_sorts_by_code_units :
  utf16_units Sample.fullwidth_tilde = [65374%N] /\
  utf16_units Sample.grinning_face = [55357%N; 56832%N] /\
  find [[("k", VStr Sample.fullwidth_tilde)];
        [("k", VStr Sample.grinning_face)]]
       (mkQuery [] [("k", "asc")] no_paginate) =
  [[("k", VStr Sample.grinning_face)];
   [("k", VStr Sample.fullwidth_tilde)]].
Proof. repeat split. Qed.

(** C7, counterexample: three records whose keys are the number 2, the
    string ["b"] and the number 1.  ["b"] compares neither below nor above a
    number, so it ties with both, while 1 is below 2: the comparator is not
    consistent.  [find], asked to sort ascending, returns the records as
    they were, with 2 before 1; and no arrangement of these records is both
    in ascending order and keeps the records that tie in their original
    relative order. *)
Lemma find_cannot_sort_mixed_keys :
  let q := mkQuery [] [("k", "asc")] no_paginate in
  let tie x y := negb (key_lt "k" x y) && negb (key_lt "k" y x) in
  find Sample.mixed_keys q = Sample.mixed_keys /\
  key_lt "k" Sample.key_one Sample.key_two = true /\
  tie Sample.key_two Sample.key_b = true /\
  tie Sample.key_b Sample.key_one = true /\
  ~ StronglySorted (fun a b => key_lt "k" b a = false)
      (find Sample.mixed_keys q) /\
  ~ (exists out,
        Permutation Sample.mixed_keys out /\
        StronglySorted (fun a b => key_lt "k" b a = false) out /\
        forall x, In x Sample.mixed_keys ->
                  List.filter (tie x) out =
                  List.filter (tie x) Sample.mixed_keys).
Proof.
  intros q tie. subst q tie.
  split; [reflexivity|]. split; [reflexivity|].
  split; [reflexivity|]. split; [reflexivity|]. split.
  - intros Hs. change (find Sample.mixed_keys _) with Sample.mixed_keys in Hs.
    apply StronglySorted_inv in Hs as [_ HF].
    inversion HF as [|? ? _ HF']. inversion HF' as [|? ? Hx _].
    discriminate Hx.
  - intros (out & Hperm & Hsorted & Hstable).
    pose proof (Permutation_length Hperm) as Hlen.
    destruct out as [|a [|b [|c [|d out]]]]; try discriminate Hlen.
    pose proof (Hstable Sample.key_two (or_introl eq_refl)) as H2.
    pose proof (Hstable Sample.key_one (or_intror (or_intror (or_introl eq_refl))))
      as H1.
    assert (Ha : In a Sample.mixed_keys).
    { apply (Permutation_in _ (Permutation_sym Hperm)). now left. }
    assert (Hb : In b Sample.mixed_keys).
    { apply (Permutation_in _ (Permutation_sym Hperm)). right. now left. }
    assert (Hc : In c Sample.mixed_keys).
    { apply (Permutation_in _ (Permutation_sym Hperm)). right. right. now left. }
    destruct Ha as [<-|[<-|[<-|[]]]];
      destruct Hb as [<-|[<-|[<-|[]]]];
      destruct Hc as [<-|[<-|[<-|[]]]];
      try (vm_compute in H2; discriminate H2);
      try (vm_compute in H1; discriminate H1).
    apply StronglySorted_inv in Hsorted as [_ HF].
    inversion HF as [|? ? _ HF']. inversion HF' as [|? ? Hx _].
    discriminate Hx.
Qed.

(** C8, failing input: a request segment with a malformed escape makes
    [_findRoute] throw: on the route [/users/:userId] of the example, and on
    [/users/:userId/posts] for a request to [/users/%/comments], which no
    route matches (with a well-formed segment the answer is "no match"). *)
Theorem findRoute_throws_on_malformed_escape :
  _findRoute api "GET" "/users/%" = Throw (URIError "URI malformed") /\
  _findRoute nested_api "GET" "/users/%/comments"
  = Throw (URIError "URI malformed") /\
  _findRoute nested_api "GET" "/users/42/comments" = Normal None.
Proof. repeat split. Qed.

(** The validator on the schema [{title: {type: 'string', required: true,
    minLength: 5}}]: a short title gives the length violation, a missing one
    the "required" violation alone. *)
Example validateSchema_title :
  let sch := [("title", mkRule (Some "string") true (Some 5%Z) None None None
                               None None)] in
  validateSchema (VObj [("title", VStr "hi")]) sch =
  mkValidationResult false
    (VObj [("title", VArr [VStr "Minimum length is 5"])]) /\
  validateSchema (VObj []) sch =
  mkValidationResult false
    (VObj [("title", VArr [VStr "Field is required"])]).
Proof. split; reflexivity. Qed.

(** A value of the wrong type gets the type error and, independently, the
    enum error; the length constraints are not checked. *)
Example validateSchema_wrong_type :
  validateSchema (VObj [("nickname", VBool true)])
                 [("nickname", nickname_rule)] =
  mkValidationResult false
    (VObj [("nickname", VArr [VStr "Type must be 'string'";
                               VStr "Value must be one of: ann, bob"])]).
Proof. reflexivity. Qed.

(** C9, counterexample: for a body that is not an object the result fails
    with [_global] bound to a string, which is not a list of strings. *)
Lemma validateSchema_global_error_is_a_string :
  let r := validateSchema (VStr "oops") PostSchema in
  success r = false /\
  errors r =
  VObj [("_global", VStr "Request body was expected to be an object.")] /\
  is_error_map (errors r) = false.
Proof. repeat split. Qed.

(** A post with nothing but a short title fails on all four fields of
    [PostSchema]: the errors have the field-to-messages shape, the last
    field has its entry as the first has, and the entries are the failing
    fields in schema order. *)
Lemma validateSchema_result_shape_witness :
  let data := VObj [("title", VStr "hi")] in
  is_error_map (errors (validateSchema data PostSchema)) = true /\
  exists errs,
    errors (validateSchema data PostSchema) = VObj errs /\
    In "title" (keys errs) /\ In "userId" (keys errs) /\
    errs =
    [("title", VArr [VStr "Minimum length is 5"]);
     ("content", VArr [VStr "Field is required"]);
     ("status", VArr [VStr "Field is required"]);
     ("userId", VArr [VStr "Field is required"])].
Proof.
  intros data.
  destruct (proj1 (validateSchema_result_shape data PostSchema) eq_refl)
    as (_ & _ & H).
  destruct (H eq_refl) as (errs & He & _ & Hmap & _ & Hcomplete & Hexact).
  split; [exact Hmap|]. exists errs. split; [exact He|]. split; [|split].
  - apply (Hcomplete "title"
             (mkRule (Some "string") true (Some 5%Z) None None None None None)).
    + left. reflexivity.
    + discriminate.
  - apply (Hcomplete "userId"
             (mkRule (Some "string") true None None None None None None)).
    + right. right. right. left. reflexivity.
    + discriminate.
  - rewrite Hexact; [reflexivity|].
    repeat constructor; cbn; intuition discriminate.
Defined.

(** An optional nickname that is null gets no error, although the rule
    declares a type, lengths and an enum. *)
Lemma validateSchema_optional_null_passes_witness :
  (forall rule, In ("nickname", rule) [("nickname", nickname_rule)] ->
                fieldErrors rule
                  (get_prop (VObj [("nickname", VNull)]) "nickname") = []) /\
  (forall errs,
      errors (validateSchema (VObj [("nickname", VNull)])
                             [("nickname", nickname_rule)]) = VObj errs ->
      lacks errs "nickname").
Proof.
  apply validateSchema_optional_null_passes.
  - reflexivity.
  - intros rule [[= <-]|[]]. reflexivity.
  - left. reflexivity.
Defined.

(* ------------------------------------------------------------------------- *)
(** * The further properties on concrete requests                              *)
(* ------------------------------------------------------------------------- *)

Import Sample.

(** The drafts among four posts: what [find] returns is a stored draft. *)
Lemma find_returns_only_matching_records_witness :
  In (post_of "p2" "draft") four_posts /\
  keeps [("status", VStr "draft")] (post_of "p2" "draft") = true.
Proof.
  apply (proj1 (@find_returns_only_matching_records _
                  four_posts
                  (mkQuery [("status", VStr "draft")] [] no_paginate))).
  left. reflexivity.
Defined.

(** Three pages of two records hold the five records, each once. *)
Lemma find_pages_cover_the_result_witness :
  List.concat (map (fun p => find five (on_page default_query (Z.of_nat p) 2))
                   (seq 1 3)) = five.
Proof.
  destruct (@find_pages_cover_the_result _ five default_query 2%Z 3%nat
                                         ltac:(lia))
    as (_ & _ & H).
  apply H. apply Nat.leb_le. reflexivity.
Defined.

(** Page -3 is page 1, and page 0 returns all five records. *)
Lemma find_page_zero_or_negative_witness :
  find five (on_page default_query (-3) 2)
  = find five (on_page default_query 1 2) /\
  find five (on_page default_query 0 2) = find five (unpaged default_query).
Proof.
  split.
  - apply (proj1 (@find_page_zero_or_negative _ five default_query (-3)%Z 2%Z)). lia.
  - apply (proj2 (@find_page_zero_or_negative _ five default_query 0%Z 2%Z)).
    left. reflexivity.
Defined.

(** With a limit of -2, page 1 of five records holds the first three. *)
Lemma find_negative_limit_witness :
  find five (on_page default_query 1 (-2)) =
  [[("id", VStr "r0")]; [("id", VStr "r1")]; [("id", VStr "r2")]] /\
  find five (on_page default_query 2 (-2)) = [].
Proof.
  destruct (@find_negative_limit _ five default_query 1%Z (-2)%Z ltac:(lia))
    as (H1 & _).
  destruct (@find_negative_limit _ five default_query 2%Z (-2)%Z ltac:(lia))
    as (_ & H2).
  split; [rewrite (H1 eq_refl); reflexivity|apply H2; lia].
Defined.

(** The direction "ascending" is not "asc": it sorts as "desc" does. *)
Lemma find_sort_directive_edges_witness :
  find four_posts (mkQuery [] [("status", "ascending")] no_paginate) =
  find four_posts (mkQuery [] [("status", "desc")] no_paginate).
Proof.
  apply (proj1 (proj2 (proj2 (@find_sort_directive_edges _
                                four_posts [] "status" "ascending" []
                                no_paginate)))).
  intros H. vm_compute in H. discriminate H.
Defined.

(** Drafts first, then the post [p2] among them, or both filters at once. *)
Lemma find_filters_compose_witness :
  find (find four_posts (mkQuery [("status", VStr "draft")] [] no_paginate))
       (mkQuery [("id", VStr "p2")] [] no_paginate) =
  find four_posts
       (mkQuery [("status", VStr "draft"); ("id", VStr "p2")] [] no_paginate).
Proof.
  apply (@find_filters_compose _ four_posts [("status", VStr "draft")]
                               [("id", VStr "p2")] [] no_paginate).
  intros k [<-|[]] [H|[]]. discriminate H.
Defined.

Lemma PostSchema_keys_distinct : NoDup (map fst PostSchema).
Proof.
  repeat constructor; cbn; intuition discriminate.
Qed.

(** A post with a short title and nothing else: the three failing fields in
    the order of [PostSchema]. *)
Lemma validateSchema_errors_in_schema_order_witness :
  validateSchema (VObj [("title", VStr "hi"); ("status", VStr "draft")])
                 PostSchema =
  mkValidationResult false
    (VObj [("title", VArr [VStr "Minimum length is 5"]);
           ("content", VArr [VStr "Field is required"]);
           ("userId", VArr [VStr "Field is required"])]).
Proof.
  rewrite (@validateSchema_errors_in_schema_order _
             (VObj [("title", VStr "hi"); ("status", VStr "draft")])
             PostSchema eq_refl PostSchema_keys_distinct).
  reflexivity.
Defined.

(** An extra [admin] field does not change the result. *)
Lemma validateSchema_ignores_unknown_fields_witness :
  validateSchema (VObj good_post) PostSchema =
  validateSchema (VObj good_post_with_extra) PostSchema.
Proof.
  apply (@validateSchema_ignores_unknown_fields _ (VObj good_post)
           (VObj good_post_with_extra) PostSchema eq_refl eq_refl).
  intros key [<-|[<-|[<-|[<-|[]]]]]; reflexivity.
Defined.

(** Lengths declared without a type are not checked. *)
Lemma fieldErrors_constraints_need_their_type_witness :
  fieldErrors untyped_rule (VStr "hi") = [].
Proof.
  rewrite (proj1 (@fieldErrors_constraints_need_their_type _
                    untyped_rule (VStr "hi") eq_refl) eq_refl).
  reflexivity.
Defined.

(** A nickname of one letter: too short and not in the enum. *)
Lemma fieldErrors_string_reports_every_violation_witness :
  fieldErrors nickname_rule (VStr "x") =
  ["Minimum length is 3"; "Value must be one of: ann, bob"].
Proof.
  rewrite (@fieldErrors_string_reports_every_violation _
             nickname_rule "x" eq_refl).
  - reflexivity.
  - discriminate.
Defined.

(** [/posts/] is looked up as [/posts]. *)
Lemma findRoute_ignores_extra_slashes_witness :
  _findRoute api "GET" "/posts/" = _findRoute api "GET" "/posts" /\
  "posts" <> EmptyString.
Proof.
  split.
  - exact (proj1 (proj2 (@findRoute_ignores_extra_slashes _ api "GET" "/posts"))).
  - apply (proj2 (proj2 (proj2 (@findRoute_ignores_extra_slashes _
                                  api "GET" "/posts")))).
    left. reflexivity.
Defined.

(** A route registered as "patch" is found by a request under "Patch". *)
Lemma register_then_findRoute_witness :
  _findRoute (_register api "patch" "/posts/archive" None silent)
             (request_method (mkFetchOptions (Some "Patch") None))
             "/posts/archive" =
  Normal (Some (mkRoute "PATCH" "/posts/archive" ["posts"; "archive"] []
                        None silent, [])).
Proof.
  exact (@register_then_findRoute _ api "patch" "Patch" "/posts/archive"
                                  None silent None
                                  eq_refl eq_refl eq_refl eq_refl).
Defined.

(** The pattern [/users/:userId/posts/:postId] records [postId] at index 3. *)
Lemma register_records_the_pattern_witness :
  exists added,
    routes (_register api "GET" "/users/:userId/posts/:postId" None silent)
    = routes api ++ [added] /\
    In ("postId", 3%nat) (params added).
Proof.
  destruct (@register_records_the_pattern _
              api "GET" "/users/:userId/posts/:postId" None silent)
    as (added & Hroutes & _ & _ & Hsegs & _ & Hparams).
  exists added. split; [exact Hroutes|].
  apply Hparams. exists ":postId". rewrite Hsegs. repeat split.
Defined.

(** The match of [GET /users/user-1] on the example. *)
Lemma findRoute_returns_a_registered_match_witness :
  In show_user_route (routes api) /\
  method show_user_route = "GET" /\
  Forall2 segment_agrees (pathSegments show_user_route)
          (segments "/users/user-1").
Proof.
  destruct (@findRoute_returns_a_registered_match _
              api "GET" "/users/user-1" show_user_route
              [("userId", VStr "user-1")] eq_refl)
    as (Hin & Hm & _ & Hagree & _).
  repeat split; assumption.
Defined.

(** Routes without parameters take a path with a malformed escape calmly. *)
Lemma findRoute_throws_only_on_parameters_witness :
  exists found, _findRoute literal_api "GET" "/posts/%" = Normal found.
Proof.
  apply (proj2 (@findRoute_throws_only_on_parameters _
                  literal_api "GET" "/posts/%")).
  intros route [<-|[<-|[]]]; reflexivity.
Defined.

(** A request no route takes leaves the store alone. *)
Lemma fetch_calls_at_most_one_handler_witness :
  fetch_store (fetch api "/comments" [] GET) = db api.
Proof.
  apply (proj1 (proj2 (@fetch_calls_at_most_one_handler _ _
                         api "/comments" [] GET))).
  reflexivity.
Defined.

(** No route of the example has the method DELETE. *)
Lemma fetch_unroutable_request_404_witness :
  fetch api "/posts" [] (mkFetchOptions (Some "delete") None) =
  mkFetchRun
    (Normal (mkResponse 404 "Not Found" "application/json"
               (Some (JsonText
                  (VObj [("message",
                          VStr "Route DELETE /posts not found.")])))))
    (Some seedData) [].
Proof.
  apply (@fetch_unroutable_request_404 _ _
           api seedData "/posts" [] (mkFetchOptions (Some "delete") None)
           eq_refl).
  intros route [<-|[<-|[<-|[<-|[]]]]]; left; vm_compute; discriminate.
Defined.

(** A GET route with a schema: the handler runs although there is no body. *)
Lemma fetch_validates_only_post_put_patch_witness :
  fetch_calls (fetch edge_api "/search" [] GET)
  = [(search_route, bare_request)].
Proof.
  apply (@fetch_validates_only_post_put_patch _ _
           edge_api seedData "/search" [] GET search_route [] eq_refl eq_refl).
  intros [H|[H|[H|[]]]]; vm_compute in H; discriminate H.
Defined.

(** [POST /posts] with a body that is not JSON. *)
Lemma fetch_rejects_unstructured_body_witness :
  fetch_result (fetch api "/posts" [] (POST "not json")) =
  Normal (mkResponse 400 "Bad Request" "application/json"
            (Some (JsonText
               (VObj [("message", VStr "Validation Error");
                      ("errors",
                       VObj [("_global",
                              VStr "Request body was expected to be an object.")])])))).
Proof.
  rewrite (@fetch_rejects_unstructured_body _ _
             api seedData "/posts" [] (POST "not json")
             create_post_route [] PostSchema
             eq_refl eq_refl eq_refl (or_introl eq_refl)).
  - reflexivity.
  - right. right. left. exists "not json". split; reflexivity.
Defined.

(** The status a handler sets is read modulo 2^16: 65736 builds a 200
    response, with no status text, since the table is indexed by the number
    the handler gave. *)
Example build_wraps_the_status :
  build (status 65736 new_ResponseHelper) =
  Normal (mkResponse 200 EmptyString "application/json" None) /\
  fetch_result (fetch wrapping_api "/wrapped" [] GET) =
  Normal (mkResponse 200 EmptyString "application/json" None).
Proof. split; reflexivity. Qed.

(** A handler that throws, one that answers 204 with a body, and one that
    sets the status 65536, read as 0: all 500. *)
Lemma fetch_hides_handler_failure_witness :
  fetch_result (fetch edge_api "/boom" [] GET) = Normal internal_error /\
  fetch_result (fetch edge_api "/empty" [] GET) = Normal internal_error /\
  fetch_result (fetch wrapping_api "/zero" [] GET) = Normal internal_error.
Proof.
  split; [|split].
  - apply (@fetch_hides_handler_failure _ _
             edge_api "/boom" [] GET boom_route bare_request seedData
             eq_refl eq_refl).
    left. eexists. reflexivity.
  - apply (@fetch_hides_handler_failure _ _
             edge_api "/empty" [] GET empty_route bare_request seedData
             eq_refl eq_refl).
    right. right. right. split; [discriminate|]. left. reflexivity.
  - apply (@fetch_hides_handler_failure _ _
             wrapping_api "/zero" [] GET zero_route bare_request seedData
             eq_refl eq_refl).
    right. left. reflexivity.
Defined.


(** [?tag=a&tag=b]: the handler sees [tag = "b"]. *)
Lemma fetch_query_last_entry_wins_witness :
  obj_get (fromEntries [("tag", "a"); ("tag", "b")] []) "tag" = VStr "b".
Proof.
  exact (@fetch_query_last_entry_wins _ _
           edge_api "/quiet" [("tag", "a"); ("tag", "b")] GET quiet_route
           (mkRequest [] (fromEntries [("tag", "a"); ("tag", "b")] []) VNull)
           eq_refl "tag").
Defined.

(** The export of the seeded database holds its posts. *)
Lemma exportData_holds_every_store_witness :
  exists exported,
    exportData ["users"; "posts"] seedData = Normal exported /\
    obj_get exported "posts" =
    VArr [VObj [("id", VStr "post-1"); ("title", VStr "Welcome Post");
                ("status", VStr "published"); ("userId", VStr "user-1")]].
Proof.
  destruct (proj1 (@exportData_holds_every_store _ seedData
                                                 ["users"; "posts"]))
    as (exported & Hexp & Hget & _).
  - intros name [<-|[<-|[]]]; discriminate.
  - exists exported. split; [exact Hexp|].
    exact (Hget "posts"
                [[("id", VStr "post-1"); ("title", VStr "Welcome Post");
                  ("status", VStr "published"); ("userId", VStr "user-1")]]
                (or_intror (or_introl eq_refl)) eq_refl).
Defined.

(** A request with a body, a query and an unknown method: still a response. *)
Lemma fetch_resolves_without_escape_witness :
  exists r,
    fetch_result (fetch api "/users/nobody" [("x", "1")]
                        (mkFetchOptions (Some "OPTIONS") (Some "{")))
    = Normal r /\ well_formed r.
Proof.
  exact (@fetch_resolves_without_escape _ _
           api seedData "/users/nobody" [("x", "1")]
           (mkFetchOptions (Some "OPTIONS") (Some "{"))
           eq_refl eq_refl).
Defined.
